(** * get_char: glyph outline decomposition and rendering

    A shallow embedding of [get_char.cpp]: the four FreeType decomposition
    callbacks that accumulate a [GlyphPath], the text renderer
    [PrintGlyphPath], and the staged [main] with its exit codes.

    Conventions.
    - [long], [FT_Pos], [FT_Error], [FT_UInt] and [size_t] values are carried
      as [Z]; the program only copies and prints them (the single arithmetic
      operation is [i + 1] on a vector index, which cannot wrap).
    - A callback receives the accumulator through [void* user]; here it is a
      state-passing computation over the accumulator.
    - Calling [back()] on an empty [std::vector] has no defined behaviour in
      C++; the embedding makes that outcome explicit as [Undefined]. *)

From Stdlib Require Import ZArith List String Ascii Bool Lia DecimalString.
From Stdlib Require DecimalPos DecimalZ.
Import ListNotations.
Open Scope Z_scope.

(* ------------------------------------------------------------------ *)
(** ** Outcomes of C++ evaluation *)

Inductive result (A : Type) : Type :=
| Returns (a : A)
| Undefined.
Arguments Returns {A} a.
Arguments Undefined {A}.

(** A computation over a mutable object of type [S] yielding an [A]. *)
Definition M (S A : Type) : Type := S -> result (A * S).

Definition ret {S A} (a : A) : M S A := fun s => Returns (a, s).

Definition bind {S A B} (m : M S A) (k : A -> M S B) : M S B :=
  fun s =>
    match m s with
    | Returns (a, s') => k a s'
    | Undefined => Undefined
    end.

Declare Scope cpp_scope.
Delimit Scope cpp_scope with cpp.
Notation "m ;; k" := (bind m (fun _ => k))
  (at level 61, right associativity) : cpp_scope.
Notation "'do' a <- m ;; k" := (bind m (fun a => k))
  (at level 61, a name, m at next level, right associativity) : cpp_scope.

Definition is_defined {A} (r : result A) : bool :=
  match r with Returns _ => true | Undefined => false end.

(* ------------------------------------------------------------------ *)
(** ** std::vector, as far as the program uses it *)

Module Vector.

(** [v.push_back(a)] *)
Definition push_back {A} (a : A) : M (list A) unit :=
  fun v => Returns (tt, v ++ [a]).

(** [v.empty()] *)
Definition empty {A} (v : list A) : bool :=
  match v with [] => true | _ :: _ => false end.

(** The vector split into everything before its last element, and that
    element; [None] exactly on the empty vector. *)
Fixpoint split_last {A} (v : list A) : option (list A * A) :=
  match v with
  | [] => None
  | a :: t =>
      match split_last t with
      | None => Some ([], a)
      | Some (front, z) => Some (a :: front, z)
      end
  end.

(** [v.back().op]: run [op] on the last element through the reference
    [back()] returns.  On an empty vector [back()] is undefined. *)
Definition back {A B} (op : M A B) : M (list A) B :=
  fun v =>
    match split_last v with
    | None => Undefined
    | Some (front, z) =>
        match op z with
        | Returns (b, z') => Returns (b, front ++ [z'])
        | Undefined => Undefined
        end
    end.

End Vector.

(* ------------------------------------------------------------------ *)
(** ** Data structures for storing glyph vector data *)

Inductive PointType : Type :=
| MOVE_TO
| LINE_TO
| CONIC_TO.

Record VectorPoint : Type := mkVectorPoint { x : Z; y : Z }.

Record PathSegment : Type := mkPathSegment {
  type : PointType;
  to : VectorPoint;
  control : VectorPoint
}.

Definition Contour : Type := list PathSegment.
Definition GlyphPath : Type := list Contour.

(** FreeType's [FT_Vector], a pair of [FT_Pos]. *)
Record FT_Vector : Type := mkFT_Vector { ft_x : Z; ft_y : Z }.

Definition PointType_eqb (a b : PointType) : bool :=
  match a, b with
  | MOVE_TO, MOVE_TO | LINE_TO, LINE_TO | CONIC_TO, CONIC_TO => true
  | _, _ => false
  end.

(* ------------------------------------------------------------------ *)
(** ** FreeType decomposition callbacks *)

Open Scope cpp_scope.

(** A new contour begins with a "move to" command. *)
Definition MoveToFunc (to : FT_Vector) : M GlyphPath Z :=
  Vector.push_back [] ;;
  Vector.back
    (Vector.push_back
       (mkPathSegment MOVE_TO (mkVectorPoint (ft_x to) (ft_y to))
                      (mkVectorPoint 0 0))) ;;
  ret 0.

(** A line segment is defined by a "line to" command. *)
Definition LineToFunc (to : FT_Vector) : M GlyphPath Z :=
  Vector.back
    (Vector.push_back
       (mkPathSegment LINE_TO (mkVectorPoint (ft_x to) (ft_y to))
                      (mkVectorPoint 0 0))) ;;
  ret 0.

(** A quadratic Bezier curve is defined by a control point and an end
    point. *)
Definition ConicToFunc (control to : FT_Vector) : M GlyphPath Z :=
  Vector.back
    (Vector.push_back
       (mkPathSegment CONIC_TO (mkVectorPoint (ft_x to) (ft_y to))
                      (mkVectorPoint (ft_x control) (ft_y control)))) ;;
  ret 0.

(** Not used for TrueType fonts, which use quadratic splines. *)
Definition CubicToFunc (control1 control2 to : FT_Vector) : M GlyphPath Z :=
  ret 0.

(* ------------------------------------------------------------------ *)
(** ** The engine's outline walk

    [FT_Outline_Decompose] belongs to FreeType.  What the program depends on
    is its interface: it calls one slot of the [FT_Outline_Funcs] table per
    structural event of the outline, hands [user] through unchanged, and
    stops at the first callback that returns a non-zero value, which becomes
    its own status. *)

Inductive outline_event : Type :=
| OnMoveTo (to : FT_Vector)
| OnLineTo (to : FT_Vector)
| OnConicTo (control to : FT_Vector)
| OnCubicTo (control1 control2 to : FT_Vector).

Record FT_Outline_Funcs (U : Type) : Type := mkFT_Outline_Funcs {
  move_to : FT_Vector -> M U Z;
  line_to : FT_Vector -> M U Z;
  conic_to : FT_Vector -> FT_Vector -> M U Z;
  cubic_to : FT_Vector -> FT_Vector -> FT_Vector -> M U Z;
  shift : Z;
  delta : Z
}.
Arguments move_to {U} _ _.
Arguments line_to {U} _ _.
Arguments conic_to {U} _ _ _.
Arguments cubic_to {U} _ _ _ _.
Arguments shift {U} _.
Arguments delta {U} _.

(** One callback invocation. *)
Definition invoke {U} (funcs : FT_Outline_Funcs U) (e : outline_event)
  : M U Z :=
  match e with
  | OnMoveTo to => move_to funcs to
  | OnLineTo to => line_to funcs to
  | OnConicTo c to => conic_to funcs c to
  | OnCubicTo c1 c2 to => cubic_to funcs c1 c2 to
  end.

(** The walk over a sequence of callback invocations: the value is [0] when
    every callback asked to continue, and otherwise the first non-zero value
    a callback returned, with the rest of the walk abandoned. *)
Fixpoint walk {U} (funcs : FT_Outline_Funcs U) (events : list outline_event)
  : M U Z :=
  match events with
  | [] => ret 0
  | e :: rest =>
      do r <- invoke funcs e ;;
      if r =? 0 then walk funcs rest else ret r
  end.

(** The table [main] fills in. *)
Definition callbacks : FT_Outline_Funcs GlyphPath :=
  {| move_to := MoveToFunc;
     line_to := LineToFunc;
     conic_to := ConicToFunc;
     cubic_to := CubicToFunc;
     shift := 0;
     delta := 0 |}.

(** Driving the callbacks over an accumulator that starts empty, as [main]
    does with its local [glyph_path]. *)
Definition decompose (events : list outline_event) : result (Z * GlyphPath) :=
  walk callbacks events [].

Close Scope cpp_scope.

(* ------------------------------------------------------------------ *)
(** ** Formatted output streams

    The part of [std::ostream] the program touches: a character buffer, the
    field width set by [std::setw] (consumed and reset to zero by the next
    formatted insertion) and the adjustment flag set by [std::right] (which
    stays set).  The fill character is the default space. *)

Open Scope string_scope.

Inductive adjustfield : Type :=
| adjust_unset       (* no flag set: behaves as right adjustment *)
| adjust_left
| adjust_right
| adjust_internal.

Record ostream : Type := mkOstream {
  buf : string;
  width : nat;
  adjust : adjustfield
}.

(** A stream on which nothing was written and no manipulator applied. *)
Definition fresh_ostream : ostream :=
  {| buf := ""; width := 0; adjust := adjust_unset |}.

Definition nl : string := String (ascii_of_nat 10) EmptyString.

Fixpoint spaces (n : nat) : string :=
  match n with
  | O => ""
  | S k => String " " (spaces k)
  end.

(** Decimal text of a signed and of an unsigned integer. *)
Definition decimal (z : Z) : string := NilZero.string_of_int (Z.to_int z).
Definition udecimal (n : Z) : string :=
  NilZero.string_of_uint (N.to_uint (Z.to_N n)).

(** Padding of character data to the field width: fill goes after the text
    under left adjustment and before it otherwise. *)
Definition pad_text (w : nat) (a : adjustfield) (s : string) : string :=
  match a with
  | adjust_left => s ++ spaces (w - String.length s)
  | _ => spaces (w - String.length s) ++ s
  end.

(** Padding of a number: as text, except that internal adjustment puts the
    fill between the sign and the digits. *)
Definition pad_number (w : nat) (a : adjustfield) (s : string) : string :=
  match a, s with
  | adjust_internal, String "-" digits =>
      String "-" (spaces (w - String.length s) ++ digits)
  | _, _ => pad_text w a s
  end.

(** What can be inserted into a stream with [<<]. *)
Inductive insertion : Type :=
| Str (s : string)           (* a string literal or [const char*] *)
| Chr (c : ascii)            (* a [char] *)
| Long (z : Z)               (* [long], [int] *)
| Size (n : Z)               (* [size_t] *)
| setw (n : nat)             (* [std::setw(n)] *)
| right                      (* [std::right] *)
| endl.                      (* [std::endl] *)

Definition emit (os : ostream) (s : string) : ostream :=
  {| buf := buf os ++ s; width := 0; adjust := adjust os |}.

Definition insert (os : ostream) (i : insertion) : ostream :=
  match i with
  | Str s => emit os (pad_text (width os) (adjust os) s)
  | Chr c => emit os (pad_text (width os) (adjust os) (String c ""))
  | Long z => emit os (pad_number (width os) (adjust os) (decimal z))
  | Size n => emit os (pad_number (width os) (adjust os) (udecimal n))
  | setw n => {| buf := buf os; width := n; adjust := adjust os |}
  | right => {| buf := buf os; width := width os; adjust := adjust_right |}
  | endl => {| buf := buf os ++ nl; width := width os; adjust := adjust os |}
  end.

Declare Scope ostream_scope.
Delimit Scope ostream_scope with os.
Notation "os << i" := (insert os i)
  (at level 50, left associativity) : ostream_scope.

(* ------------------------------------------------------------------ *)
(** ** PrintGlyphPath *)

Open Scope ostream_scope.

(** The body of the inner range-for: the [switch] on the segment type. *)
Definition print_segment (os : ostream) (segment : PathSegment) : ostream :=
  match type segment with
  | MOVE_TO =>
      os << Str "      MoveTo ("
         << right << setw 5 << Long (x (to segment)) << Str ", "
         << right << setw 5 << Long (y (to segment)) << Str (")" ++ nl)
  | LINE_TO =>
      os << Str "      LineTo ("
         << right << setw 5 << Long (x (to segment)) << Str ", "
         << right << setw 5 << Long (y (to segment)) << Str (")" ++ nl)
  | CONIC_TO =>
      os << Str "      QuadTo ("
         << right << setw 5 << Long (x (control segment)) << Str ", "
         << right << setw 5 << Long (y (control segment)) << Str ") ("
         << right << setw 5 << Long (x (to segment)) << Str ", "
         << right << setw 5 << Long (y (to segment)) << Str (")" ++ nl)
  end.

(** The outer loop, entered at index [i] with the contours [path[i..]]
    still to print. *)
Fixpoint print_contours (rest : list Contour) (i : Z) (os : ostream)
  : ostream :=
  match rest with
  | [] => os
  | contour :: rest' =>
      let os := os << Str "   Contour #" << setw 2 << Size (i + 1)
                   << Str nl in
      let os := fold_left print_segment contour os in
      print_contours rest' (i + 1) os
  end.

Definition PrintGlyphPath (path : GlyphPath) (cout : ostream) : ostream :=
  let cout := cout << Str ("// Extracted Glyph Path:" ++ nl) in
  print_contours path 0 cout.

Close Scope ostream_scope.
Close Scope string_scope.

(* ------------------------------------------------------------------ *)
(** ** The font engine as [main] sees it

    The FreeType entry points are external.  Their outcomes for one run of
    the program are collected here, together with the constants of the
    FreeType headers and the one platform choice the program depends on
    (whether plain [char] is signed).  [outline_events] is the sequence of
    callback invocations [FT_Outline_Decompose] makes on the loaded glyph
    and [outline_status] is the status it reports when no callback stopped
    it. *)

Record FreeType : Type := mkFreeType {
  FT_Err_Unknown_File_Format : Z;
  FT_GLYPH_FORMAT_OUTLINE : Z;
  FT_LOAD_NO_SCALE : Z;
  FT_LOAD_NO_HINTING : Z;
  char_is_signed : bool;
  ULONG_MAX : Z;
  FT_Init_FreeType : Z;
  FT_New_Face : string -> Z -> Z;
  FT_Get_Char_Index : Z -> Z;
  FT_Load_Glyph : Z -> Z -> Z;
  glyph_format : Z;
  outline_events : list outline_event;
  outline_status : Z
}.

Definition FT_Outline_Decompose {U} (ft : FreeType)
  (funcs : FT_Outline_Funcs U) : M U Z :=
  bind (walk funcs (outline_events ft))
       (fun r => if r =? 0 then ret (outline_status ft) else ret r).

(** Resources handed back to the engine, in the order of the calls. *)
Inductive teardown : Type :=
| Done_Face
| Done_FreeType.

Record world : Type := mkWorld {
  cout : ostream;
  cerr : ostream;
  released : list teardown
}.

Definition initial_world : world :=
  {| cout := fresh_ostream; cerr := fresh_ostream; released := [] |}.

Definition on_cout (f : ostream -> ostream) (w : world) : world :=
  {| cout := f (cout w); cerr := cerr w; released := released w |}.

Definition on_cerr (f : ostream -> ostream) (w : world) : world :=
  {| cout := cout w; cerr := f (cerr w); released := released w |}.

Definition FT_Done_Face (w : world) : world :=
  {| cout := cout w; cerr := cerr w; released := released w ++ [Done_Face] |}.

Definition FT_Done_FreeType (w : world) : world :=
  {| cout := cout w; cerr := cerr w;
     released := released w ++ [Done_FreeType] |}.

(** [s[0]] of a NUL-terminated string: its first byte, the terminator when
    the string is empty. *)
Definition first_char (s : string) : ascii :=
  match s with
  | EmptyString => zero
  | String c _ => c
  end.

(** [static_cast<FT_ULong>(c)] for a plain [char]. *)
Definition FT_ULong_of_char (ft : FreeType) (c : ascii) : Z :=
  let n := Z.of_nat (nat_of_ascii c) in
  if char_is_signed ft && (128 <=? n) then n - 256 + (ULONG_MAX ft + 1)
  else n.

(* ------------------------------------------------------------------ *)
(** ** main

    [argv0] is [argv[0]] and [args] are [argv[1..]], so that [argc] is
    [1 + length args].  The value is the exit code with the final state of
    the two streams and the teardown calls made. *)

Open Scope ostream_scope.

Definition main (ft : FreeType) (argv0 : string) (args : list string)
  : result (Z * world) :=
  let w := initial_world in
  let argc := 1 + Z.of_nat (List.length args) in
  if negb (argc =? 3) then
    Returns (1, on_cerr (fun os => os << Str "Usage: " << Str argv0
                           << Str (" <font_path.ttf> <character>" ++ nl)) w)
  else
  let font_path := nth 0 args ""%string in
  let character_to_load := first_char (nth 1 args ""%string) in
  let error := FT_Init_FreeType ft in
  if negb (error =? 0) then
    Returns (1, on_cerr (fun os => os
        << Str "Error: Could not initialize FreeType library. Code: "
        << Long error << endl) w)
  else
  let error := FT_New_Face ft font_path 0 in
  if error =? FT_Err_Unknown_File_Format ft then
    let w := on_cerr (fun os => os
        << Str "Error: The font file could be opened but its format is unsupported."
        << endl) w in
    Returns (1, FT_Done_FreeType w)
  else if negb (error =? 0) then
    let w := on_cerr (fun os => os
        << Str "Error: Could not open or process font file: "
        << Str font_path << endl) w in
    Returns (1, FT_Done_FreeType w)
  else
  let glyph_index :=
    FT_Get_Char_Index ft (FT_ULong_of_char ft character_to_load) in
  if glyph_index =? 0 then
    let w := on_cerr (fun os => os
        << Str "Error: Glyph not found for character '"
        << Chr character_to_load << Str "'." << endl) w in
    Returns (1, FT_Done_FreeType (FT_Done_Face w))
  else
  let error :=
    FT_Load_Glyph ft glyph_index
      (Z.lor (FT_LOAD_NO_SCALE ft) (FT_LOAD_NO_HINTING ft)) in
  if negb (error =? 0) then
    let w := on_cerr (fun os => os
        << Str "Error: Could not load glyph. Code: " << Long error
        << endl) w in
    Returns (1, FT_Done_FreeType (FT_Done_Face w))
  else
  if negb (glyph_format ft =? FT_GLYPH_FORMAT_OUTLINE ft) then
    let w := on_cerr (fun os => os
        << Str "Error: Glyph format is not an outline." << endl) w in
    Returns (1, FT_Done_FreeType (FT_Done_Face w))
  else
  match FT_Outline_Decompose ft callbacks [] with
  | Undefined => Undefined
  | Returns (error, glyph_path) =>
      if negb (error =? 0) then
        let w := on_cerr (fun os => os
            << Str "Error: Could not decompose glyph outline. Code: "
            << Long error << endl) w in
        Returns (1, FT_Done_FreeType (FT_Done_Face w))
      else
        let w := on_cout (fun os => os
            << Str "// Successfully extracted vector data for character '"
            << Chr character_to_load << Str "' from " << Str font_path
            << Str ("." ++ nl)) w in
        let w := on_cout (PrintGlyphPath glyph_path) w in
        Returns (0, FT_Done_FreeType (FT_Done_Face w))
  end.

Close Scope ostream_scope.

(* ------------------------------------------------------------------ *)
(** ** The decomposition protocol

    The engine opens every contour with one [move_to], so the first
    callback it ever makes is a [move_to]. *)

Definition respects_protocol (events : list outline_event) : bool :=
  match events with
  | [] => true
  | OnMoveTo _ :: _ => true
  | _ :: _ => false
  end.

Definition is_cubic (e : outline_event) : bool :=
  match e with OnCubicTo _ _ _ => true | _ => false end.

(** An outline given contour by contour: the point of the opening
    [move_to] and the edges that follow it. *)
Inductive edge : Type :=
| LineEdge (to : FT_Vector)
| ConicEdge (control to : FT_Vector).

Record contour_calls : Type := mkContourCalls {
  opening : FT_Vector;
  edges : list edge
}.

Definition event_of_edge (e : edge) : outline_event :=
  match e with
  | LineEdge to => OnLineTo to
  | ConicEdge c to => OnConicTo c to
  end.

Definition events_of_contour (c : contour_calls) : list outline_event :=
  OnMoveTo (opening c) :: map event_of_edge (edges c).

Definition events_of_outline (outline : list contour_calls)
  : list outline_event :=
  flat_map events_of_contour outline.

(** Reading a callback sequence back as contours: the edges met before the
    first [move_to], and the contours from there on.  Cubic events carry no
    edge. *)
Fixpoint contours_of_events (events : list outline_event)
  : list edge * list contour_calls :=
  match events with
  | [] => ([], [])
  | e :: rest =>
      let (pre, cs) := contours_of_events rest in
      match e with
      | OnMoveTo to => ([], mkContourCalls to pre :: cs)
      | OnLineTo to => (LineEdge to :: pre, cs)
      | OnConicTo c to => (ConicEdge c to :: pre, cs)
      | OnCubicTo _ _ _ => (pre, cs)
      end
  end.

Definition point_of (v : FT_Vector) : VectorPoint :=
  mkVectorPoint (ft_x v) (ft_y v).

(** A segment carries the kind, the end point and (for a conic) the control
    point of a callback invocation. *)
Definition mirrors (e : outline_event) (s : PathSegment) : Prop :=
  match e with
  | OnMoveTo p => type s = MOVE_TO /\ to s = point_of p
  | OnLineTo p => type s = LINE_TO /\ to s = point_of p
  | OnConicTo c p =>
      type s = CONIC_TO /\ to s = point_of p /\ control s = point_of c
  | OnCubicTo _ _ _ => False
  end.

Definition segments_of_edges (es : list edge) : list PathSegment :=
  map (fun e =>
         match e with
         | LineEdge p =>
             mkPathSegment LINE_TO (point_of p) (mkVectorPoint 0 0)
         | ConicEdge c p => mkPathSegment CONIC_TO (point_of p) (point_of c)
         end) es.

Definition contour_of_calls (c : contour_calls) : Contour :=
  mkPathSegment MOVE_TO (point_of (opening c)) (mkVectorPoint 0 0)
    :: segments_of_edges (edges c).

(** The accumulator after one invocation on a path whose last contour is
    [c]: a cubic changes nothing, a move opens a contour, an edge extends
    [c]. *)
Definition after_invoke (e : outline_event) (front : GlyphPath) (c : Contour)
  : GlyphPath :=
  match e with
  | OnMoveTo p =>
      front ++ [c] ++
        [[mkPathSegment MOVE_TO (point_of p) (mkVectorPoint 0 0)]]
  | OnLineTo p =>
      front ++ [c ++ [mkPathSegment LINE_TO (point_of p) (mkVectorPoint 0 0)]]
  | OnConicTo q p =>
      front ++ [c ++ [mkPathSegment CONIC_TO (point_of p) (point_of q)]]
  | OnCubicTo _ _ _ => front ++ [c]
  end.

(** Two sample walks: the square of the specification's scenario, and a
    glyph of two contours with a conic edge and a cubic event. *)
Definition square_events : list outline_event :=
  [ OnMoveTo (mkFT_Vector 0 0);
    OnLineTo (mkFT_Vector 100 0);
    OnLineTo (mkFT_Vector 100 100);
    OnLineTo (mkFT_Vector 0 100);
    OnLineTo (mkFT_Vector 0 0) ].

Definition sample_events : list outline_event :=
  [ OnMoveTo (mkFT_Vector 10 20);
    OnLineTo (mkFT_Vector 30 (-40));
    OnCubicTo (mkFT_Vector 1 2) (mkFT_Vector 3 4) (mkFT_Vector 5 6);
    OnConicTo (mkFT_Vector 7 8) (mkFT_Vector 9 10);
    OnMoveTo (mkFT_Vector 0 0);
    OnLineTo (mkFT_Vector 12345 0) ].

(* ------------------------------------------------------------------ *)
(** ** Invariants of the accumulator *)

Definition starts_with_MoveTo (c : Contour) : bool :=
  match c with
  | [] => false
  | s :: _ => PointType_eqb (type s) MOVE_TO
  end.

Definition contours_well_formed (path : GlyphPath) : bool :=
  forallb starts_with_MoveTo path.

Definition is_zero_point (p : VectorPoint) : bool :=
  (x p =? 0) && (y p =? 0).

Definition unused_control_is_zero (s : PathSegment) : bool :=
  match type s with
  | MOVE_TO | LINE_TO => is_zero_point (control s)
  | CONIC_TO => true
  end.

Definition controls_well_formed (path : GlyphPath) : bool :=
  forallb (forallb unused_control_is_zero) path.

Definition right_adjusting (os : ostream) : bool :=
  match adjust os with
  | adjust_unset | adjust_right => true
  | adjust_left | adjust_internal => false
  end.

(** Two segments that differ at most in a control point that their kind
    does not use. *)
Definition same_used_fields (s1 s2 : PathSegment) : Prop :=
  type s1 = type s2 /\ to s1 = to s2 /\
  (type s1 = CONIC_TO -> control s1 = control s2).

(* ------------------------------------------------------------------ *)
(** ** Outcomes of a callback *)

(** The value a call returned, when it has one. *)
Definition return_value {A S} (r : result (A * S)) : option A :=
  match r with
  | Returns (a, _) => Some a
  | Undefined => None
  end.

(** A callback that detects a violated precondition stops the walk: it
    returns, and returns a non-zero value. *)
Definition fails_fast {S} (r : result (Z * S)) : bool :=
  match r with
  | Returns (code, _) => negb (code =? 0)
  | Undefined => false
  end.

(* ------------------------------------------------------------------ *)
(** ** The layout of the rendering, as specified *)

Open Scope string_scope.

(** [s] right-aligned in a field of width [w]: preceded by as many spaces
    as it is short of [w]. *)
Definition right_align (w : nat) (s : string) : string :=
  spaces (w - String.length s) ++ s.

Definition rendered_point (p : VectorPoint) : string :=
  "(" ++ right_align 5 (decimal (x p)) ++ ", "
      ++ right_align 5 (decimal (y p)) ++ ")".

Definition rendered_segment (s : PathSegment) : string :=
  match type s with
  | MOVE_TO => "      MoveTo " ++ rendered_point (to s) ++ nl
  | LINE_TO => "      LineTo " ++ rendered_point (to s) ++ nl
  | CONIC_TO =>
      "      QuadTo " ++ rendered_point (control s) ++ " "
                      ++ rendered_point (to s) ++ nl
  end.

Fixpoint rendered_segments (c : Contour) : string :=
  match c with
  | [] => ""
  | s :: rest => rendered_segment s ++ rendered_segments rest
  end.

Definition rendered_contour (index : Z) (c : Contour) : string :=
  "   Contour #" ++ right_align 2 (udecimal index) ++ nl
     ++ rendered_segments c.

(** Contours numbered from [first]. *)
Fixpoint rendered_contours (first : Z) (path : GlyphPath) : string :=
  match path with
  | [] => ""
  | c :: rest => rendered_contour first c ++ rendered_contours (first + 1) rest
  end.

Definition rendered_path (path : GlyphPath) : string :=
  "// Extracted Glyph Path:" ++ nl ++ rendered_contours 1 path.

Open Scope Z_scope.

(* ------------------------------------------------------------------ *)
(** ** The failure taxonomy of [main] *)

Inductive failure : Type :=
| UsageError
| EngineInitError
| UnsupportedFontFormat
| FontOpenError
| GlyphNotFound
| GlyphLoadError
| NonOutlineGlyph
| DecompositionError.

(** The first stage that fails in a run, if any: argument count, engine
    initialisation, font open, glyph lookup, glyph load, glyph format,
    outline walk. *)
Definition first_failure (ft : FreeType) (args : list string)
  : option failure :=
  if negb (Nat.eqb (List.length args) 2) then Some UsageError
  else if negb (FT_Init_FreeType ft =? 0) then Some EngineInitError
  else
    let opened := FT_New_Face ft (nth 0 args ""%string) 0 in
    if opened =? FT_Err_Unknown_File_Format ft then Some UnsupportedFontFormat
    else if negb (opened =? 0) then Some FontOpenError
    else
      let glyph_index :=
        FT_Get_Char_Index ft
          (FT_ULong_of_char ft (first_char (nth 1 args ""%string))) in
      if glyph_index =? 0 then Some GlyphNotFound
      else if negb (FT_Load_Glyph ft glyph_index
                      (Z.lor (FT_LOAD_NO_SCALE ft) (FT_LOAD_NO_HINTING ft))
                    =? 0)
      then Some GlyphLoadError
      else if negb (glyph_format ft =? FT_GLYPH_FORMAT_OUTLINE ft)
      then Some NonOutlineGlyph
      else if negb (outline_status ft =? 0) then Some DecompositionError
      else None.

(** A sample engine: one font file, [font.ttf], in which only the letter A
    has a glyph, whose outline is walked as [sample_events]. *)
Definition sample_engine : FreeType :=
  {| FT_Err_Unknown_File_Format := 2;
     FT_GLYPH_FORMAT_OUTLINE := 1869968492;
     FT_LOAD_NO_SCALE := 1;
     FT_LOAD_NO_HINTING := 2;
     char_is_signed := true;
     ULONG_MAX := 18446744073709551615;
     FT_Init_FreeType := 0;
     FT_New_Face := fun path _ => if String.eqb path "font.ttf" then 0 else 1;
     FT_Get_Char_Index := fun code => if code =? 65 then 36 else 0;
     FT_Load_Glyph := fun _ _ => 0;
     glyph_format := 1869968492;
     outline_events := sample_events;
     outline_status := 0 |}.

Close Scope string_scope.


(* ------------------------------------------------------------------ *)
(** ** Reading an accumulated path back as callbacks *)

Definition vector_of (p : VectorPoint) : FT_Vector :=
  mkFT_Vector (x p) (y p).

(** The callback that appends a segment equal to [s] in its used fields. *)
Definition event_of_segment (s : PathSegment) : outline_event :=
  match type s with
  | MOVE_TO => OnMoveTo (vector_of (to s))
  | LINE_TO => OnLineTo (vector_of (to s))
  | CONIC_TO => OnConicTo (vector_of (control s)) (vector_of (to s))
  end.

(** The segments of a path in storage order, as callbacks. *)
Definition events_of_path (path : GlyphPath) : list outline_event :=
  map event_of_segment (List.concat path).

Definition is_MoveTo (s : PathSegment) : bool :=
  PointType_eqb (type s) MOVE_TO.

(** A contour with exactly one MoveTo segment, at its head. *)
Definition one_MoveTo (c : Contour) : bool :=
  starts_with_MoveTo c && forallb (fun s => negb (is_MoveTo s)) (tl c).

Definition is_move (e : outline_event) : bool :=
  match e with OnMoveTo _ => true | _ => false end.

(* ------------------------------------------------------------------ *)
(** ** Characters of the rendering *)

Fixpoint all_chars (P : ascii -> bool) (s : string) : bool :=
  match s with
  | EmptyString => true
  | String c rest => P c && all_chars P rest
  end.

Fixpoint count_char (d : ascii) (s : string) : nat :=
  match s with
  | EmptyString => O
  | String c rest =>
      ((if Ascii.eqb c d then 1 else 0) + count_char d rest)%nat
  end.

(** The characters of a decimal number. *)
Definition is_digit_or_sign (c : ascii) : bool :=
  match c with
  | "-"%char
  | "0"%char | "1"%char | "2"%char | "3"%char | "4"%char
  | "5"%char | "6"%char | "7"%char | "8"%char | "9"%char => true
  | _ => false
  end.

(** The characters of a number padded to its field. *)
Definition is_field_char (c : ascii) : bool :=
  is_digit_or_sign c || Ascii.eqb c " "%char.

(** The number of lines of a text: its newline characters. *)
Definition count_lines (s : string) : nat :=
  count_char (ascii_of_nat 10) s.

(** What may follow the segment lines of a contour in a rendering: the end
    of the text or the heading of the next contour. *)
Definition after_segments (rest : string) : Prop :=
  rest = EmptyString \/ exists t, rest = ("   Contour #" ++ t)%string.

(* ------------------------------------------------------------------ *)
(** ** Coordinates that fit their field *)

(** The numbers whose decimal text has at most five characters. *)
Definition coordinate_fits (z : Z) : bool :=
  (-9999 <=? z) && (z <=? 99999).

Definition point_fits (p : VectorPoint) : bool :=
  coordinate_fits (x p) && coordinate_fits (y p).

(** The coordinates a segment line shows all fit. *)
Definition segment_fits (s : PathSegment) : bool :=
  match type s with
  | MOVE_TO | LINE_TO => point_fits (to s)
  | CONIC_TO => point_fits (control s) && point_fits (to s)
  end.

(** Length of a segment line with its newline, when all fields have their
    nominal width. *)
Definition segment_line_length (s : PathSegment) : nat :=
  match type s with
  | MOVE_TO | LINE_TO => 28
  | CONIC_TO => 43
  end.

(** [P] holds of the [n] integers from [lo] on. *)
Fixpoint all_from (P : Z -> bool) (lo : Z) (n : nat) : bool :=
  match n with
  | O => true
  | S k => P lo && all_from P (lo + 1) k
  end.

(* ------------------------------------------------------------------ *)
(** ** Runs of [main] *)

(** The first line [main] writes to standard output on success. *)
Definition success_line (character_to_load : ascii) (font_path : string)
  : string :=
  ("// Successfully extracted vector data for character '"
     ++ String character_to_load ("' from " ++ font_path ++ "." ++ nl))%string.

(** The same engine with another outline in the glyph slot. *)
Definition set_outline (ft : FreeType) (events : list outline_event)
  (status : Z) : FreeType :=
  {| FT_Err_Unknown_File_Format := FT_Err_Unknown_File_Format ft;
     FT_GLYPH_FORMAT_OUTLINE := FT_GLYPH_FORMAT_OUTLINE ft;
     FT_LOAD_NO_SCALE := FT_LOAD_NO_SCALE ft;
     FT_LOAD_NO_HINTING := FT_LOAD_NO_HINTING ft;
     char_is_signed := char_is_signed ft;
     ULONG_MAX := ULONG_MAX ft;
     FT_Init_FreeType := FT_Init_FreeType ft;
     FT_New_Face := FT_New_Face ft;
     FT_Get_Char_Index := FT_Get_Char_Index ft;
     FT_Load_Glyph := FT_Load_Glyph ft;
     glyph_format := glyph_format ft;
     outline_events := events;
     outline_status := status |}.

(** The teardown calls a run must make: none before the library is
    initialised, the library alone while no face is open, the face and then
    the library from there on. *)
Definition expected_teardown (f : option failure) : list teardown :=
  match f with
  | Some UsageError | Some EngineInitError => []
  | Some UnsupportedFontFormat | Some FontOpenError => [Done_FreeType]
  | _ => [Done_Face; Done_FreeType]
  end.

(** The word a diagnostic starts with. *)
Definition diagnostic_prefix (f : failure) : string :=
  match f with
  | UsageError => "Usage: "
  | _ => "Error: "
  end.

(** [s] begins with the characters of [p]. *)
Fixpoint starts_with (p s : string) : bool :=
  match p, s with
  | EmptyString, _ => true
  | String a p', String b s' => Ascii.eqb a b && starts_with p' s'
  | String _ _, EmptyString => false
  end.

(** [main] over the whole argument vector as the system hands it over:
    [argc] is its length and [argv[argc]] is a null pointer.  Started with
    an empty vector, [argc] is 0, the argument count check fails and the
    usage message inserts [argv[0]], a null [char*], into [std::cerr], which
    has no defined behaviour. *)
Definition main_argv (ft : FreeType) (argv : list string)
  : result (Z * world) :=
  match argv with
  | [] => Undefined
  | argv0 :: args => main ft argv0 args
  end.

(* ================================================================== *)
(** * Properties *)

(* ------------------------------------------------------------------ *)
(** ** Vectors *)

Lemma split_last_snoc {A} (v : list A) (a : A) :
  Vector.split_last (v ++ [a]) = Some (v, a).
Proof.
  induction v as [|b v IH]; simpl.
  - reflexivity.
  - rewrite IH. reflexivity.
Qed.

Lemma split_last_nonempty {A} (v : list A) :
  Vector.empty v = false ->
  exists front z, v = front ++ [z].
Proof.
  destruct v as [|a v]; [discriminate|]. intros _.
  destruct (exists_last (l := a :: v)) as [front [z E]]; [discriminate|].
  exists front, z. exact E.
Qed.

Lemma empty_snoc {A} (v : list A) (a : A) : Vector.empty (v ++ [a]) = false.
Proof. destruct v; reflexivity. Qed.

(* ------------------------------------------------------------------ *)
(** ** What each callback does to the accumulator *)

Lemma MoveToFunc_spec (p : FT_Vector) (path : GlyphPath) :
  MoveToFunc p path =
  Returns (0, path ++ [[mkPathSegment MOVE_TO (point_of p) (mkVectorPoint 0 0)]]).
Proof.
  unfold MoveToFunc, bind, Vector.push_back, Vector.back, ret.
  rewrite split_last_snoc. reflexivity.
Qed.

Lemma LineToFunc_spec (p : FT_Vector) (front : GlyphPath) (c : Contour) :
  LineToFunc p (front ++ [c]) =
  Returns (0, front ++
                [c ++ [mkPathSegment LINE_TO (point_of p) (mkVectorPoint 0 0)]]).
Proof.
  unfold LineToFunc, bind, Vector.push_back, Vector.back, ret.
  rewrite split_last_snoc. reflexivity.
Qed.

Lemma ConicToFunc_spec (q p : FT_Vector) (front : GlyphPath) (c : Contour) :
  ConicToFunc q p (front ++ [c]) =
  Returns (0, front ++
                [c ++ [mkPathSegment CONIC_TO (point_of p) (point_of q)]]).
Proof.
  unfold ConicToFunc, bind, Vector.push_back, Vector.back, ret.
  rewrite split_last_snoc. reflexivity.
Qed.

Lemma LineToFunc_empty (p : FT_Vector) : LineToFunc p [] = Undefined.
Proof. reflexivity. Qed.

Lemma ConicToFunc_empty (q p : FT_Vector) : ConicToFunc q p [] = Undefined.
Proof. reflexivity. Qed.

Lemma invoke_open (e : outline_event) (front : GlyphPath) (c : Contour) :
  invoke callbacks e (front ++ [c]) = Returns (0, after_invoke e front c).
Proof.
  destruct e; simpl.
  - rewrite MoveToFunc_spec, <- app_assoc. reflexivity.
  - apply LineToFunc_spec.
  - apply ConicToFunc_spec.
  - reflexivity.
Qed.

Lemma after_invoke_nonempty e front c :
  Vector.empty (after_invoke e front c) = false.
Proof.
  destruct e, front; reflexivity.
Qed.

(* ------------------------------------------------------------------ *)
(** ** The walk *)

Lemma walk_cons (e : outline_event) (rest : list outline_event)
      (path path' : GlyphPath) :
  invoke callbacks e path = Returns (0, path') ->
  walk callbacks (e :: rest) path = walk callbacks rest path'.
Proof.
  intros H. simpl. unfold bind. rewrite H. reflexivity.
Qed.

Lemma walk_app (ev1 ev2 : list outline_event) :
  forall path path',
    walk callbacks ev1 path = Returns (0, path') ->
    walk callbacks (ev1 ++ ev2) path = walk callbacks ev2 path'.
Proof.
  induction ev1 as [|e ev1 IH]; intros path path' H; simpl in *.
  - unfold ret in H. injection H as <-. reflexivity.
  - unfold bind in *.
    destruct (invoke callbacks e path) as [[r p1]|]; [|discriminate].
    destruct (r =? 0) eqn:Er.
    + apply IH. exact H.
    + unfold ret in H. injection H as Hr _. subst r. discriminate.
Qed.

Lemma walk_edges (es : list edge) :
  forall front c,
    walk callbacks (map event_of_edge es) (front ++ [c]) =
    Returns (0, front ++ [c ++ segments_of_edges es]).
Proof.
  induction es as [|e es IH]; intros front c; simpl.
  - rewrite app_nil_r. reflexivity.
  - unfold bind. rewrite invoke_open.
    destruct e; simpl; rewrite IH, <- app_assoc; reflexivity.
Qed.

Lemma walk_contour (c : contour_calls) (path : GlyphPath) :
  walk callbacks (events_of_contour c) path =
  Returns (0, path ++ [contour_of_calls c]).
Proof.
  unfold events_of_contour.
  rewrite (walk_cons (OnMoveTo (opening c)) _ path _
             (MoveToFunc_spec (opening c) path)).
  rewrite walk_edges. reflexivity.
Qed.

Lemma walk_outline (outline : list contour_calls) :
  forall path,
    walk callbacks (events_of_outline outline) path =
    Returns (0, path ++ map contour_of_calls outline).
Proof.
  induction outline as [|c outline IH]; intros path.
  - simpl. rewrite app_nil_r. reflexivity.
  - change (events_of_outline (c :: outline))
      with (events_of_contour c ++ events_of_outline outline).
    rewrite (walk_app _ _ _ _ (walk_contour c path)).
    rewrite IH, <- app_assoc. reflexivity.
Qed.

Lemma contour_of_calls_mirrors (c : contour_calls) :
  Forall2 mirrors (events_of_contour c) (contour_of_calls c).
Proof.
  unfold events_of_contour, contour_of_calls. constructor.
  - simpl. auto.
  - induction (edges c) as [|e es IH]; simpl; constructor.
    + destruct e; simpl; auto.
    + exact IH.
Qed.

Lemma contour_of_calls_length (c : contour_calls) :
  List.length (contour_of_calls c) = S (List.length (edges c)).
Proof.
  unfold contour_of_calls, segments_of_edges. simpl.
  rewrite length_map. reflexivity.
Qed.

(* ------------------------------------------------------------------ *)
(** ** Callback sequences and the contours they describe *)

Lemma events_of_outline_respects_protocol (outline : list contour_calls) :
  respects_protocol (events_of_outline outline) = true.
Proof. destruct outline; reflexivity. Qed.

Lemma respects_protocol_firstn (events : list outline_event) (k : nat) :
  respects_protocol events = true ->
  respects_protocol (firstn k events) = true.
Proof.
  destruct events as [|e rest], k; simpl; try reflexivity.
  destruct e; auto.
Qed.

(** Without its cubic events, a callback sequence is the edges met before
    the first [move_to] followed by the contours read from it. *)
Lemma contours_of_events_sound (events : list outline_event) :
  filter (fun e => negb (is_cubic e)) events =
  map event_of_edge (fst (contours_of_events events)) ++
  events_of_outline (snd (contours_of_events events)).
Proof.
  induction events as [|e rest IH]; simpl.
  - reflexivity.
  - destruct (contours_of_events rest) as [pre cs]. simpl in IH.
    destruct e; simpl; rewrite IH; reflexivity.
Qed.

Lemma contours_of_events_protocol (events : list outline_event) :
  respects_protocol events = true ->
  fst (contours_of_events events) = [].
Proof.
  destruct events as [|e rest]; simpl; [reflexivity|].
  destruct (contours_of_events rest) as [pre cs].
  destruct e; simpl; intros H; try discriminate. reflexivity.
Qed.

(** The walk from an accumulator whose last contour is [c]: the edges met
    before the next [move_to] extend [c], and each [move_to] from there on
    opens a contour of its own. *)
Lemma walk_contours_of_events (events : list outline_event) :
  forall front c,
    walk callbacks events (front ++ [c]) =
    Returns (0, front
                  ++ [c ++ segments_of_edges (fst (contours_of_events events))]
                  ++ map contour_of_calls (snd (contours_of_events events))).
Proof.
  induction events as [|e rest IH]; intros front c.
  - simpl. rewrite app_nil_r. reflexivity.
  - rewrite (walk_cons e rest _ _ (invoke_open e front c)).
    simpl contours_of_events.
    destruct (contours_of_events rest) as [pre cs] eqn:E.
    simpl in IH.
    destruct e; unfold after_invoke; simpl fst; simpl snd.
    + rewrite (app_assoc front [c]), IH.
      simpl. rewrite app_nil_r, <- app_assoc. reflexivity.
    + rewrite IH. simpl. rewrite <- app_assoc. reflexivity.
    + rewrite IH. simpl. rewrite <- app_assoc. reflexivity.
    + apply IH.
Qed.

(** Closed form of a decomposition that respects the protocol. *)
Lemma decompose_closed_form (events : list outline_event) :
  respects_protocol events = true ->
  decompose events =
  Returns (0, map contour_of_calls (snd (contours_of_events events))).
Proof.
  unfold decompose.
  destruct events as [|e rest]; [reflexivity|].
  destruct e; simpl respects_protocol; intros H; try discriminate.
  rewrite (walk_cons (OnMoveTo to0) rest [] _ (MoveToFunc_spec to0 [])).
  rewrite (walk_contours_of_events rest [] _).
  simpl. destruct (contours_of_events rest) as [pre cs]. reflexivity.
Qed.

Lemma decompose_outline (outline : list contour_calls) :
  decompose (events_of_outline outline) =
  Returns (0, map contour_of_calls outline).
Proof. unfold decompose. rewrite walk_outline. reflexivity. Qed.

Lemma contours_mirror (outline : list contour_calls) :
  Forall2
    (fun c contour =>
       List.length contour = S (List.length (edges c)) /\
       Forall2 mirrors (events_of_contour c) contour)
    outline (map contour_of_calls outline).
Proof.
  induction outline as [|c outline IH]; simpl; constructor.
  - split.
    + apply contour_of_calls_length.
    + apply contour_of_calls_mirrors.
  - exact IH.
Qed.

(** C1. For every callback sequence that respects the protocol, driving the
    callbacks over an empty accumulator returns 0 with a path that has one
    contour per [move_to], in order; the contour of a [move_to] followed by
    [k] line and conic edges has exactly [1 + k] segments, and these carry,
    in order, the kind, the end point and (for a conic) the control point
    of the callbacks that produced them.  The contours are read from the
    sequence itself: without its cubic events the sequence is exactly the
    concatenation of the contours' callbacks. *)
Theorem decompose_mirrors_callbacks (events : list outline_event) :
  respects_protocol events = true ->
  let outline := snd (contours_of_events events) in
  filter (fun e => negb (is_cubic e)) events = events_of_outline outline /\
  exists path,
    decompose events = Returns (0, path) /\
    List.length path = List.length outline /\
    Forall2
      (fun c contour =>
         List.length contour = S (List.length (edges c)) /\
         Forall2 mirrors (events_of_contour c) contour)
      outline path.
Proof.
  intros H outline. split.
  - rewrite contours_of_events_sound, (contours_of_events_protocol _ H).
    reflexivity.
  - exists (map contour_of_calls outline). repeat split.
    + apply decompose_closed_form, H.
    + apply length_map.
    + apply contours_mirror.
Qed.

Example decompose_square :
  decompose square_events =
  Returns (0, [[ mkPathSegment MOVE_TO (mkVectorPoint 0 0) (mkVectorPoint 0 0);
                 mkPathSegment LINE_TO (mkVectorPoint 100 0) (mkVectorPoint 0 0);
                 mkPathSegment LINE_TO (mkVectorPoint 100 100) (mkVectorPoint 0 0);
                 mkPathSegment LINE_TO (mkVectorPoint 0 100) (mkVectorPoint 0 0);
                 mkPathSegment LINE_TO (mkVectorPoint 0 0) (mkVectorPoint 0 0) ]]).
Proof. reflexivity. Qed.

Example decompose_sample :
  decompose sample_events =
  Returns (0, [ [ mkPathSegment MOVE_TO (mkVectorPoint 10 20) (mkVectorPoint 0 0);
                  mkPathSegment LINE_TO (mkVectorPoint 30 (-40)) (mkVectorPoint 0 0);
                  mkPathSegment CONIC_TO (mkVectorPoint 9 10) (mkVectorPoint 7 8) ];
                [ mkPathSegment MOVE_TO (mkVectorPoint 0 0) (mkVectorPoint 0 0);
                  mkPathSegment LINE_TO (mkVectorPoint 12345 0) (mkVectorPoint 0 0) ] ]).
Proof. reflexivity. Qed.

Lemma decompose_mirrors_callbacks_witness :
  respects_protocol sample_events = true /\
  let outline := snd (contours_of_events sample_events) in
  filter (fun e => negb (is_cubic e)) sample_events
    = events_of_outline outline /\
  exists path,
    decompose sample_events = Returns (0, path) /\
    List.length path = List.length outline /\
    Forall2
      (fun c contour =>
         List.length contour = S (List.length (edges c)) /\
         Forall2 mirrors (events_of_contour c) contour)
      outline path.
Proof.
  split.
  - reflexivity.
  - apply (decompose_mirrors_callbacks sample_events). reflexivity.
Defined.

(* ------------------------------------------------------------------ *)
(** ** Invariants kept by every callback

    A property of contours that holds of a freshly opened contour and
    survives the addition of a line or a conic segment holds of every
    contour of the accumulator, after every callback. *)

Section ContourInvariant.

Variable Q : Contour -> bool.

Hypothesis Q_opened :
  forall p, Q [mkPathSegment MOVE_TO p (mkVectorPoint 0 0)] = true.
Hypothesis Q_line :
  forall c p,
    Q c = true ->
    Q (c ++ [mkPathSegment LINE_TO p (mkVectorPoint 0 0)]) = true.
Hypothesis Q_conic :
  forall c p q,
    Q c = true -> Q (c ++ [mkPathSegment CONIC_TO p q]) = true.

Lemma forallb_snoc (front : GlyphPath) (c : Contour) :
  forallb Q (front ++ [c]) = forallb Q front && Q c.
Proof. rewrite forallb_app. simpl. rewrite andb_true_r. reflexivity. Qed.

Lemma MoveToFunc_keeps (p : FT_Vector) (path : GlyphPath) :
  forallb Q path = true ->
  exists path',
    MoveToFunc p path = Returns (0, path') /\
    Vector.empty path' = false /\ forallb Q path' = true.
Proof.
  intros H. eexists. split; [apply MoveToFunc_spec|]. split.
  - apply empty_snoc.
  - rewrite forallb_snoc, H, Q_opened. reflexivity.
Qed.

Lemma invoke_keeps (e : outline_event) (path : GlyphPath) :
  Vector.empty path = false ->
  forallb Q path = true ->
  exists path',
    invoke callbacks e path = Returns (0, path') /\
    Vector.empty path' = false /\ forallb Q path' = true.
Proof.
  intros Hne HQ.
  destruct (split_last_nonempty path Hne) as [front [c ->]].
  exists (after_invoke e front c). split; [apply invoke_open|].
  split; [apply after_invoke_nonempty|].
  rewrite forallb_snoc in HQ. apply andb_prop in HQ as [Hf Hc].
  destruct e; unfold after_invoke.
  - rewrite app_assoc, !forallb_snoc, Hf, Hc, Q_opened. reflexivity.
  - rewrite forallb_snoc, Hf, Q_line by exact Hc. reflexivity.
  - rewrite forallb_snoc, Hf, Q_conic by exact Hc. reflexivity.
  - rewrite forallb_snoc, Hf, Hc. reflexivity.
Qed.

Lemma walk_keeps (events : list outline_event) :
  forall path,
    Vector.empty path = false ->
    forallb Q path = true ->
    exists path',
      walk callbacks events path = Returns (0, path') /\
      forallb Q path' = true.
Proof.
  induction events as [|e rest IH]; intros path Hne HQ.
  - exists path. split; [reflexivity | exact HQ].
  - destruct (invoke_keeps e path Hne HQ) as [p1 [E1 [Hne1 HQ1]]].
    destruct (IH p1 Hne1 HQ1) as [p2 [E2 HQ2]].
    exists p2. split; [|exact HQ2].
    rewrite (walk_cons e rest path p1 E1). exact E2.
Qed.

Lemma decompose_keeps (events : list outline_event) :
  respects_protocol events = true ->
  exists path,
    decompose events = Returns (0, path) /\ forallb Q path = true.
Proof.
  unfold decompose. destruct events as [|e rest].
  - intros _. exists []. split; reflexivity.
  - destruct e; simpl respects_protocol; intros H; try discriminate.
    destruct (MoveToFunc_keeps to0 [] eq_refl) as [p1 [E1 [Hne1 HQ1]]].
    destruct (walk_keeps rest p1 Hne1 HQ1) as [p2 [E2 HQ2]].
    exists p2. split; [|exact HQ2].
    rewrite (walk_cons (OnMoveTo to0) rest [] p1 E1). exact E2.
Qed.

End ContourInvariant.

Lemma starts_with_MoveTo_snoc (c : Contour) (s : PathSegment) :
  starts_with_MoveTo c = true -> starts_with_MoveTo (c ++ [s]) = true.
Proof. destruct c; simpl; [discriminate | auto]. Qed.

(** C2. Along every callback sequence that respects the protocol, after
    each individual callback (that is, after every prefix of the sequence,
    the complete sequence included) the callbacks have all returned 0 and
    every contour of the accumulator is non-empty and begins with a MoveTo
    segment. *)
Theorem contours_always_well_formed (events : list outline_event) (k : nat) :
  respects_protocol events = true ->
  exists path,
    decompose (firstn k events) = Returns (0, path) /\
    contours_well_formed path = true.
Proof.
  intros H. apply (decompose_keeps starts_with_MoveTo).
  - reflexivity.
  - intros c p. apply starts_with_MoveTo_snoc.
  - intros c p q. apply starts_with_MoveTo_snoc.
  - apply respects_protocol_firstn, H.
Qed.

Lemma contours_always_well_formed_witness :
  respects_protocol sample_events = true /\
  exists path,
    decompose (firstn 4 sample_events) = Returns (0, path) /\
    contours_well_formed path = true.
Proof.
  split.
  - reflexivity.
  - apply (contours_always_well_formed sample_events 4). reflexivity.
Defined.

(* ------------------------------------------------------------------ *)
(** ** Edges before any contour is open *)

Lemma LineToFunc_open (p : FT_Vector) (path : GlyphPath) :
  Vector.empty path = false ->
  exists path', LineToFunc p path = Returns (0, path').
Proof.
  intros H. destruct (split_last_nonempty path H) as [front [c ->]].
  eexists. apply LineToFunc_spec.
Qed.

Lemma ConicToFunc_open (q p : FT_Vector) (path : GlyphPath) :
  Vector.empty path = false ->
  exists path', ConicToFunc q p path = Returns (0, path').
Proof.
  intros H. destruct (split_last_nonempty path H) as [front [c ->]].
  eexists. apply ConicToFunc_spec.
Qed.

(** C5, as stated, fails: on the empty accumulator [LineToFunc] and
    [ConicToFunc] do not stop the walk with a non-zero value; they reach
    [back()] of the empty vector. *)
Lemma edge_on_empty_not_guarded :
  fails_fast (LineToFunc (mkFT_Vector 100 0) []) = false /\
  LineToFunc (mkFT_Vector 100 0) [] = Undefined /\
  fails_fast (ConicToFunc (mkFT_Vector 7 8) (mkFT_Vector 9 10) []) = false /\
  ConicToFunc (mkFT_Vector 7 8) (mkFT_Vector 9 10) [] = Undefined.
Proof. repeat split. Qed.

(** C5, amended. [LineToFunc] and [ConicToFunc] make no check of the
    accumulator: they never return a non-zero value, and their behaviour is
    defined exactly when the accumulator is non-empty; on the empty
    accumulator they take [back()] of the empty vector. *)
Theorem edge_callbacks_unguarded (q p : FT_Vector) (path : GlyphPath) :
  is_defined (LineToFunc p path) = negb (Vector.empty path) /\
  is_defined (ConicToFunc q p path) = negb (Vector.empty path) /\
  fails_fast (LineToFunc p path) = false /\
  fails_fast (ConicToFunc q p path) = false /\
  LineToFunc p [] = Undefined /\
  ConicToFunc q p [] = Undefined.
Proof.
  destruct (Vector.empty path) eqn:E.
  - destruct path; [|discriminate]. repeat split.
  - destruct (LineToFunc_open p path E) as [p1 E1].
    destruct (ConicToFunc_open q p path E) as [p2 E2].
    rewrite E1, E2. repeat split.
Qed.

(* ------------------------------------------------------------------ *)
(** ** Cubic events *)

Lemma walk_congr (e : outline_event) (ev1 ev2 : list outline_event)
      (path : GlyphPath) :
  (forall p, walk callbacks ev1 p = walk callbacks ev2 p) ->
  walk callbacks (e :: ev1) path = walk callbacks (e :: ev2) path.
Proof.
  intros H. simpl. unfold bind.
  destruct (invoke callbacks e path) as [[r p1]|]; [|reflexivity].
  destruct (r =? 0); [apply H | reflexivity].
Qed.

Lemma walk_skips_cubic (events : list outline_event) :
  forall path,
    walk callbacks (filter (fun e => negb (is_cubic e)) events) path =
    walk callbacks events path.
Proof.
  induction events as [|e rest IH]; intros path; [reflexivity|].
  destruct (is_cubic e) eqn:E; simpl filter; rewrite E; simpl negb; cbv iota.
  - destruct e; try discriminate. apply IH.
  - apply walk_congr, IH.
Qed.

(** C6. On every accumulator and for every arguments, [CubicToFunc] returns
    0 and leaves the accumulator as it was; a walk therefore builds the
    same path with or without its cubic events. *)
Theorem CubicToFunc_no_effect :
  (forall (control1 control2 p : FT_Vector) (path : GlyphPath),
      CubicToFunc control1 control2 p path = Returns (0, path)) /\
  (forall (events : list outline_event) (path : GlyphPath),
      walk callbacks (filter (fun e => negb (is_cubic e)) events) path =
      walk callbacks events path).
Proof.
  split.
  - reflexivity.
  - intros events path. apply walk_skips_cubic.
Qed.

(* ------------------------------------------------------------------ *)
(** ** Return values and determinism *)

(** C9, as stated, fails: invoked on the empty accumulator, [LineToFunc]
    and [ConicToFunc] do not return 0; they have no return value at all,
    their behaviour being undefined from [back()] on. *)
Lemma edge_on_empty_returns_nothing :
  return_value (LineToFunc (mkFT_Vector 100 0) []) <> Some 0 /\
  return_value (ConicToFunc (mkFT_Vector 7 8) (mkFT_Vector 9 10) [])
    <> Some 0.
Proof. split; discriminate. Qed.

(** C9, amended. Each of the four callbacks returns 0 on every invocation
    whose behaviour is defined: [MoveToFunc] and [CubicToFunc] on every
    accumulator, [LineToFunc] and [ConicToFunc] on every accumulator with
    an open contour; on the empty accumulator these two have no defined
    behaviour and so no return value.  A walk that respects the protocol
    is therefore never stopped by a callback: it returns 0. *)
Theorem callbacks_always_continue :
  (forall p path, return_value (MoveToFunc p path) = Some 0) /\
  (forall p path,
      return_value (LineToFunc p path) =
      if Vector.empty path then None else Some 0) /\
  (forall q p path,
      return_value (ConicToFunc q p path) =
      if Vector.empty path then None else Some 0) /\
  (forall c1 c2 p path, return_value (CubicToFunc c1 c2 p path) = Some 0) /\
  (forall events,
      respects_protocol events = true ->
      return_value (decompose events) = Some 0).
Proof.
  repeat split.
  - intros p path. rewrite MoveToFunc_spec. reflexivity.
  - intros p path. destruct (Vector.empty path) eqn:E.
    + destruct path; [reflexivity | discriminate].
    + destruct (LineToFunc_open p path E) as [p1 ->]. reflexivity.
  - intros q p path. destruct (Vector.empty path) eqn:E.
    + destruct path; [reflexivity | discriminate].
    + destruct (ConicToFunc_open q p path E) as [p1 ->]. reflexivity.
  - intros events H. rewrite (decompose_closed_form events H). reflexivity.
Qed.

Lemma callbacks_always_continue_witness :
  respects_protocol sample_events = true /\
  return_value (decompose sample_events) = Some 0.
Proof.
  split.
  - reflexivity.
  - apply (proj2 (proj2 (proj2 (proj2 callbacks_always_continue)))).
    reflexivity.
Defined.

(** C8. Two replays of one callback sequence that respects the protocol,
    each over an accumulator that starts empty, both return 0 with the same
    path, the one determined by the sequence. *)
Theorem decompose_deterministic
        (events : list outline_event) (run1 run2 : result (Z * GlyphPath)) :
  respects_protocol events = true ->
  run1 = decompose events ->
  run2 = decompose events ->
  exists path,
    path = map contour_of_calls (snd (contours_of_events events)) /\
    run1 = Returns (0, path) /\ run2 = Returns (0, path).
Proof.
  intros H -> ->. eexists. split; [reflexivity|].
  rewrite (decompose_closed_form events H). split; reflexivity.
Qed.

Lemma decompose_deterministic_witness :
  respects_protocol sample_events = true /\
  exists path,
    path = map contour_of_calls (snd (contours_of_events sample_events)) /\
    decompose sample_events = Returns (0, path) /\
    walk callbacks sample_events [] = Returns (0, path).
Proof.
  split.
  - reflexivity.
  - apply (decompose_deterministic sample_events
             (decompose sample_events) (walk callbacks sample_events []));
      reflexivity.
Defined.

(* ------------------------------------------------------------------ *)
(** ** Strings *)

Lemma append_assoc (a b c : string) :
  ((a ++ b) ++ c = a ++ (b ++ c))%string.
Proof. induction a as [|ch a IH]; simpl; [reflexivity | now rewrite IH]. Qed.

Lemma append_nil_r (a : string) : (a ++ "" = a)%string.
Proof. induction a as [|ch a IH]; simpl; [reflexivity | now rewrite IH]. Qed.

Lemma length_append (a b : string) :
  String.length (a ++ b) = (String.length a + String.length b)%nat.
Proof. induction a as [|ch a IH]; simpl; [reflexivity | now rewrite IH]. Qed.

Lemma length_spaces (n : nat) : String.length (spaces n) = n.
Proof. induction n as [|n IH]; simpl; [reflexivity | now rewrite IH]. Qed.

Lemma right_align_length (w : nat) (s : string) :
  String.length (right_align w s) = Nat.max w (String.length s).
Proof.
  unfold right_align. rewrite length_append, length_spaces. lia.
Qed.

(* ------------------------------------------------------------------ *)
(** ** The renderer *)

Lemma pad_text_no_width (a : adjustfield) (s : string) : pad_text 0 a s = s.
Proof. destruct a; simpl; try reflexivity. apply append_nil_r. Qed.

Lemma pad_number_right (w : nat) (os : ostream) (s : string) :
  right_adjusting os = true ->
  pad_number w (adjust os) s = right_align w s.
Proof.
  unfold right_adjusting. destruct (adjust os); intros H;
    try discriminate; reflexivity.
Qed.

Lemma pad_number_adjust_right (w : nat) (s : string) :
  pad_number w adjust_right s = right_align w s.
Proof. reflexivity. Qed.

(** Unfolding a chain of insertions from the innermost one outwards. *)
Ltac run_insertions := cbv [insert emit buf width adjust].

Lemma print_segment_spec (os : ostream) (s : PathSegment) :
  width os = 0%nat ->
  print_segment os s =
  {| buf := buf os ++ rendered_segment s;
     width := 0;
     adjust := adjust_right |}.
Proof.
  destruct os as [b w a]. cbn [width]. intros ->.
  unfold print_segment, rendered_segment, rendered_point.
  destruct (type s); run_insertions;
    rewrite !pad_text_no_width, !pad_number_adjust_right;
    f_equal; rewrite !append_assoc; reflexivity.
Qed.

Lemma print_segments_spec (c : Contour) :
  forall os,
    width os = 0%nat ->
    right_adjusting os = true ->
    let os' := fold_left print_segment c os in
    buf os' = (buf os ++ rendered_segments c)%string /\
    width os' = 0%nat /\ right_adjusting os' = true.
Proof.
  induction c as [|s c IH]; intros os Hw Ha; simpl.
  - rewrite append_nil_r. auto.
  - rewrite (print_segment_spec os s Hw).
    destruct (IH {| buf := buf os ++ rendered_segment s; width := 0;
                    adjust := adjust_right |} eq_refl eq_refl)
      as [Hb [Hw' Ha']].
    rewrite Hb. cbn [buf]. rewrite append_assoc. auto.
Qed.

Lemma contour_header_spec (os : ostream) (i : Z) :
  width os = 0%nat ->
  right_adjusting os = true ->
  (os << Str "   Contour #" << setw 2 << Size (i + 1) << Str nl)%os =
  {| buf := buf os ++ "   Contour #" ++ right_align 2 (udecimal (i + 1)) ++ nl;
     width := 0;
     adjust := adjust os |}.
Proof.
  intros Hw Ha. destruct os as [b w a]. cbn [width] in Hw. subst w.
  run_insertions. rewrite !pad_text_no_width.
  rewrite (pad_number_right 2 {| buf := b; width := 0; adjust := a |})
    by exact Ha.
  f_equal. rewrite !append_assoc. reflexivity.
Qed.

Lemma print_contours_spec (path : GlyphPath) :
  forall i os,
    width os = 0%nat ->
    right_adjusting os = true ->
    buf (print_contours path i os) =
    (buf os ++ rendered_contours (i + 1) path)%string.
Proof.
  induction path as [|c path IH]; intros i os Hw Ha.
  - simpl. rewrite append_nil_r. reflexivity.
  - cbn [print_contours rendered_contours]. cbv zeta.
    rewrite (contour_header_spec os i Hw Ha).
    match goal with
    | |- context [fold_left print_segment c ?o] =>
        destruct (print_segments_spec c o eq_refl Ha) as [Hb [Hw' Ha']]
    end.
    rewrite IH by assumption.
    rewrite Hb. cbn [buf]. unfold rendered_contour.
    rewrite !append_assoc. reflexivity.
Qed.

Lemma PrintGlyphPath_spec (path : GlyphPath) (os : ostream) :
  width os = 0%nat ->
  right_adjusting os = true ->
  buf (PrintGlyphPath path os) = (buf os ++ rendered_path path)%string.
Proof.
  intros Hw Ha. unfold PrintGlyphPath, rendered_path.
  destruct os as [b w a]. cbn [width] in Hw. subst w.
  rewrite print_contours_spec; [|reflexivity|exact Ha].
  run_insertions. rewrite pad_text_no_width, !append_assoc. reflexivity.
Qed.

(** C3. Written to a stream in its initial formatting state (whatever was
    written before), [PrintGlyphPath] appends exactly the specified layout:
    a heading line, then for each contour a line with its 1-based index
    right-aligned in a field of width 2, followed by one line per segment,
    [MoveTo (x, y)], [LineTo (x, y)] or [QuadTo (cx, cy) (x, y)] according
    to its kind, every coordinate right-aligned in a field of width 5.
    Right-aligned in a field of width [w] means preceded by spaces only, up
    to a total length of [w], or of the text itself when that is longer.
    The three kinds are the only ones a segment can have. *)
Theorem PrintGlyphPath_layout :
  (forall (path : GlyphPath) (written : string),
      buf (PrintGlyphPath path
             {| buf := written; width := 0; adjust := adjust_unset |}) =
      (written ++ rendered_path path)%string) /\
  (forall (w : nat) (s : string),
      right_align w s = (spaces (w - String.length s) ++ s)%string /\
      String.length (right_align w s) = Nat.max w (String.length s)) /\
  (forall s : PathSegment,
      type s = MOVE_TO \/ type s = LINE_TO \/ type s = CONIC_TO).
Proof.
  split; [|split].
  - intros path written. apply PrintGlyphPath_spec; reflexivity.
  - intros w s. split; [reflexivity | apply right_align_length].
  - intros s. destruct (type s); auto.
Qed.

Example render_square :
  match decompose square_events with
  | Returns (_, path) => buf (PrintGlyphPath path fresh_ostream)
  | Undefined => ""%string
  end =
"// Extracted Glyph Path:
   Contour # 1
      MoveTo (    0,     0)
      LineTo (  100,     0)
      LineTo (  100,   100)
      LineTo (    0,   100)
      LineTo (    0,     0)
"%string.
Proof. vm_compute. reflexivity. Qed.

Example render_sample :
  match decompose sample_events with
  | Returns (_, path) => buf (PrintGlyphPath path fresh_ostream)
  | Undefined => ""%string
  end =
"// Extracted Glyph Path:
   Contour # 1
      MoveTo (   10,    20)
      LineTo (   30,   -40)
      QuadTo (    7,     8) (    9,    10)
   Contour # 2
      MoveTo (    0,     0)
      LineTo (12345,     0)
"%string.
Proof. vm_compute. reflexivity. Qed.

Example right_align_wide :
  right_align 5 (decimal (-12000)) = "-12000"%string /\
  right_align 5 (decimal 123456) = "123456"%string /\
  right_align 2 (udecimal 100) = "100"%string.
Proof. repeat split. Qed.

(* ------------------------------------------------------------------ *)
(** ** Control points of MoveTo and LineTo segments *)

Lemma print_segment_same_used_fields (os : ostream) (s1 s2 : PathSegment) :
  same_used_fields s1 s2 -> print_segment os s1 = print_segment os s2.
Proof.
  intros [Ht [Hto Hc]]. unfold print_segment.
  rewrite <- Ht, <- Hto. destruct (type s1); try reflexivity.
  rewrite (Hc eq_refl). reflexivity.
Qed.

Lemma print_segments_same_used_fields (c1 c2 : Contour) :
  Forall2 same_used_fields c1 c2 ->
  forall os, fold_left print_segment c1 os = fold_left print_segment c2 os.
Proof.
  induction 1 as [|s1 s2 c1 c2 Hs _ IH]; intros os; simpl.
  - reflexivity.
  - rewrite (print_segment_same_used_fields os s1 s2 Hs). apply IH.
Qed.

Lemma print_contours_same_used_fields (p1 p2 : GlyphPath) :
  Forall2 (Forall2 same_used_fields) p1 p2 ->
  forall i os, print_contours p1 i os = print_contours p2 i os.
Proof.
  induction 1 as [|c1 c2 p1 p2 Hc _ IH]; intros i os.
  - reflexivity.
  - cbn [print_contours]. cbv zeta.
    rewrite (print_segments_same_used_fields c1 c2 Hc). apply IH.
Qed.

Lemma unused_control_snoc (c : Contour) (s : PathSegment) :
  unused_control_is_zero s = true ->
  forallb unused_control_is_zero c = true ->
  forallb unused_control_is_zero (c ++ [s]) = true.
Proof.
  intros Hs Hc. rewrite forallb_app, Hc. simpl. rewrite Hs. reflexivity.
Qed.

(** C7. Every MoveTo and LineTo segment the callbacks put into the
    accumulator, at any point of a walk that respects the protocol, has the
    zero point as its control point; and what [PrintGlyphPath] does to the
    stream is the same for two paths that differ only in control points of
    MoveTo and LineTo segments. *)
Theorem unused_control_point :
  (forall (events : list outline_event) (k : nat),
      respects_protocol events = true ->
      exists path,
        decompose (firstn k events) = Returns (0, path) /\
        controls_well_formed path = true) /\
  (forall (p1 p2 : GlyphPath) (os : ostream),
      Forall2 (Forall2 same_used_fields) p1 p2 ->
      PrintGlyphPath p1 os = PrintGlyphPath p2 os).
Proof.
  split.
  - intros events k H.
    apply (decompose_keeps (forallb unused_control_is_zero)).
    + reflexivity.
    + intros c p. apply unused_control_snoc. reflexivity.
    + intros c p q. apply unused_control_snoc. reflexivity.
    + apply respects_protocol_firstn, H.
  - intros p1 p2 os H. unfold PrintGlyphPath.
    apply print_contours_same_used_fields, H.
Qed.

Lemma unused_control_point_witness :
  (respects_protocol sample_events = true /\
   exists path,
     decompose (firstn 3 sample_events) = Returns (0, path) /\
     controls_well_formed path = true) /\
  (Forall2 (Forall2 same_used_fields)
     [[mkPathSegment MOVE_TO (mkVectorPoint 1 2) (mkVectorPoint 0 0);
       mkPathSegment LINE_TO (mkVectorPoint 3 4) (mkVectorPoint 0 0)]]
     [[mkPathSegment MOVE_TO (mkVectorPoint 1 2) (mkVectorPoint 5 6);
       mkPathSegment LINE_TO (mkVectorPoint 3 4) (mkVectorPoint 7 8)]] /\
   PrintGlyphPath
     [[mkPathSegment MOVE_TO (mkVectorPoint 1 2) (mkVectorPoint 0 0);
       mkPathSegment LINE_TO (mkVectorPoint 3 4) (mkVectorPoint 0 0)]]
     fresh_ostream =
   PrintGlyphPath
     [[mkPathSegment MOVE_TO (mkVectorPoint 1 2) (mkVectorPoint 5 6);
       mkPathSegment LINE_TO (mkVectorPoint 3 4) (mkVectorPoint 7 8)]]
     fresh_ostream).
Proof.
  assert (Hsame :
    Forall2 (Forall2 same_used_fields)
      [[mkPathSegment MOVE_TO (mkVectorPoint 1 2) (mkVectorPoint 0 0);
        mkPathSegment LINE_TO (mkVectorPoint 3 4) (mkVectorPoint 0 0)]]
      [[mkPathSegment MOVE_TO (mkVectorPoint 1 2) (mkVectorPoint 5 6);
        mkPathSegment LINE_TO (mkVectorPoint 3 4) (mkVectorPoint 7 8)]]).
  { repeat constructor; simpl; discriminate. }
  split; [split|split].
  - reflexivity.
  - apply (proj1 unused_control_point sample_events 3%nat). reflexivity.
  - exact Hsame.
  - apply (proj2 unused_control_point). exact Hsame.
Defined.

(* ------------------------------------------------------------------ *)
(** ** main *)

Lemma argc_test (args : list string) :
  negb (1 + Z.of_nat (List.length args) =? 3) =
  negb (Nat.eqb (List.length args) 2).
Proof.
  f_equal. destruct (Nat.eqb_spec (List.length args) 2) as [E|E].
  - rewrite E. reflexivity.
  - apply Z.eqb_neq. lia.
Qed.

Lemma FT_Outline_Decompose_spec (ft : FreeType) :
  respects_protocol (outline_events ft) = true ->
  exists path,
    decompose (outline_events ft) = Returns (0, path) /\
    FT_Outline_Decompose ft callbacks [] = Returns (outline_status ft, path).
Proof.
  intros H. eexists. split; [apply decompose_closed_form, H|].
  unfold FT_Outline_Decompose, bind.
  fold (decompose (outline_events ft)).
  rewrite (decompose_closed_form _ H). reflexivity.
Qed.

Ltac stage :=
  match goal with
  | |- context [if ?b then _ else _] =>
      match type of b with bool => destruct b eqn:? end
  end.

(** C4. Whenever the engine's walk respects the protocol, [main] exits with
    code 1 and an empty standard output if any stage fails (argument count,
    engine initialisation, unsupported font format, font open, glyph
    lookup, glyph load, glyph format, decomposition), and with code 0
    otherwise; in that case standard output holds the heading line and the
    rendering of the complete decomposed path. *)
Theorem main_exit_codes (ft : FreeType) (argv0 : string) (args : list string) :
  respects_protocol (outline_events ft) = true ->
  match first_failure ft args with
  | Some _ =>
      exists w,
        main ft argv0 args = Returns (1, w) /\ buf (cout w) = ""%string
  | None =>
      exists w path,
        main ft argv0 args = Returns (0, w) /\
        decompose (outline_events ft) = Returns (0, path) /\
        exists heading, buf (cout w) = (heading ++ rendered_path path)%string
  end.
Proof.
  intros H.
  destruct (FT_Outline_Decompose_spec ft H) as [path [Hd HD]].
  unfold main, first_failure. cbv zeta.
  rewrite argc_test, HD.
  do 8 (stage; [eexists; split; reflexivity|]).
  eexists; exists path. split; [reflexivity|]. split; [exact Hd|].
  eexists. cbn [cout FT_Done_FreeType FT_Done_Face on_cout initial_world].
  apply PrintGlyphPath_spec; reflexivity.
Qed.

Lemma main_exit_codes_witness :
  respects_protocol (outline_events sample_engine) = true /\
  exists w path,
    main sample_engine "get_char" ["font.ttf"; "A"]%string = Returns (0, w) /\
    decompose (outline_events sample_engine) = Returns (0, path) /\
    exists heading, buf (cout w) = (heading ++ rendered_path path)%string.
Proof.
  split.
  - reflexivity.
  - apply (main_exit_codes sample_engine "get_char"
             ["font.ttf"; "A"]%string).
    reflexivity.
Defined.

Example main_success :
  match main sample_engine "get_char" ["font.ttf"; "A"]%string with
  | Returns (code, w) => (code, buf (cout w), buf (cerr w), released w)
  | Undefined => (-1, ""%string, ""%string, [])
  end =
  (0,
"// Successfully extracted vector data for character 'A' from font.ttf.
// Extracted Glyph Path:
   Contour # 1
      MoveTo (   10,    20)
      LineTo (   30,   -40)
      QuadTo (    7,     8) (    9,    10)
   Contour # 2
      MoveTo (    0,     0)
      LineTo (12345,     0)
"%string,
   ""%string,
   [Done_Face; Done_FreeType]).
Proof. vm_compute. reflexivity. Qed.

Example main_glyph_not_found :
  match main sample_engine "get_char" ["font.ttf"; "z"]%string with
  | Returns (code, w) => (code, buf (cout w), buf (cerr w), released w)
  | Undefined => (-1, ""%string, ""%string, [])
  end =
  (1, ""%string,
"Error: Glyph not found for character 'z'.
"%string,
   [Done_Face; Done_FreeType]).
Proof. vm_compute. reflexivity. Qed.

Example main_usage :
  match main sample_engine "get_char" ["font.ttf"]%string with
  | Returns (code, w) => (code, buf (cout w), buf (cerr w), released w)
  | Undefined => (-1, ""%string, ""%string, [])
  end =
  (1, ""%string,
"Usage: get_char <font_path.ttf> <character>
"%string,
   []).
Proof. vm_compute. reflexivity. Qed.

Example main_long_character_argument :
  main sample_engine "get_char" ["font.ttf"; "Abc"]%string =
  main sample_engine "get_char" ["font.ttf"; "A"]%string.
Proof. reflexivity. Qed.


(* ================================================================== *)
(** * Further properties of the accumulator *)

Lemma one_MoveTo_snoc (c : Contour) (s : PathSegment) :
  is_MoveTo s = false -> one_MoveTo c = true -> one_MoveTo (c ++ [s]) = true.
Proof.
  intros Hs. unfold one_MoveTo. destruct c as [|h t]; simpl; [discriminate|].
  intros H. apply andb_prop in H as [Hh Ht].
  rewrite Hh, forallb_app, Ht. simpl. rewrite Hs. reflexivity.
Qed.

(** X1. Along every callback sequence that respects the protocol, after
    each callback every contour of the accumulator holds exactly one MoveTo
    segment, its first: no later segment of a contour is a MoveTo. *)
Theorem contours_have_one_MoveTo (events : list outline_event) (k : nat) :
  respects_protocol events = true ->
  exists path,
    decompose (firstn k events) = Returns (0, path) /\
    forallb one_MoveTo path = true.
Proof.
  intros H. apply (decompose_keeps one_MoveTo).
  - reflexivity.
  - intros c p. apply one_MoveTo_snoc. reflexivity.
  - intros c p q. apply one_MoveTo_snoc. reflexivity.
  - apply respects_protocol_firstn, H.
Qed.

Lemma contours_have_one_MoveTo_witness :
  respects_protocol sample_events = true /\
  exists path,
    decompose (firstn 5 sample_events) = Returns (0, path) /\
    forallb one_MoveTo path = true.
Proof.
  split.
  - reflexivity.
  - apply (contours_have_one_MoveTo sample_events 5%nat). reflexivity.
Defined.

(** A walk that respects the protocol, over any accumulator. *)
Lemma walk_protocol_frame (events : list outline_event) (acc : GlyphPath) :
  respects_protocol events = true ->
  walk callbacks events acc =
  Returns (0, acc ++ map contour_of_calls (snd (contours_of_events events))).
Proof.
  destruct events as [|e rest].
  - intros _. simpl. rewrite app_nil_r. reflexivity.
  - destruct e; simpl respects_protocol; intros H; try discriminate.
    rewrite (walk_cons (OnMoveTo to0) rest acc _ (MoveToFunc_spec to0 acc)).
    rewrite walk_contours_of_events.
    simpl. destruct (contours_of_events rest) as [pre cs]. reflexivity.
Qed.

(** X4. A walk that respects the protocol never touches what is already in
    the accumulator: it appends to it the path it builds from the empty
    accumulator.  Two such walks run one after the other on one accumulator
    therefore give the concatenation of their paths. *)
Theorem walk_appends_to_accumulator (events : list outline_event) :
  respects_protocol events = true ->
  exists path,
    decompose events = Returns (0, path) /\
    (forall acc, walk callbacks events acc = Returns (0, acc ++ path)) /\
    (forall before path0,
        decompose before = Returns (0, path0) ->
        decompose (before ++ events) = Returns (0, path0 ++ path)).
Proof.
  intros H. eexists. split; [apply decompose_closed_form, H|]. split.
  - intros acc. apply walk_protocol_frame, H.
  - intros before path0 Hb. unfold decompose in *.
    rewrite (walk_app before events [] path0 Hb).
    apply walk_protocol_frame, H.
Qed.

Lemma walk_appends_to_accumulator_witness :
  respects_protocol square_events = true /\
  exists path,
    decompose square_events = Returns (0, path) /\
    (forall acc, walk callbacks square_events acc = Returns (0, acc ++ path)) /\
    (forall before path0,
        decompose before = Returns (0, path0) ->
        decompose (before ++ square_events) = Returns (0, path0 ++ path)).
Proof.
  split.
  - reflexivity.
  - apply (walk_appends_to_accumulator square_events). reflexivity.
Defined.

(* ------------------------------------------------------------------ *)
(** ** The path as a log of the callbacks *)

Lemma vector_of_point_of (p : FT_Vector) : vector_of (point_of p) = p.
Proof. destruct p. reflexivity. Qed.

Lemma point_of_vector_of (p : VectorPoint) : point_of (vector_of p) = p.
Proof. destruct p. reflexivity. Qed.

Lemma events_of_path_snoc (front : GlyphPath) (c : Contour) (s : PathSegment) :
  events_of_path (front ++ [c ++ [s]]) =
  events_of_path (front ++ [c]) ++ [event_of_segment s].
Proof.
  unfold events_of_path. rewrite !concat_app. simpl.
  rewrite !app_nil_r, app_assoc, map_app. reflexivity.
Qed.

Lemma events_of_path_after_invoke e front c :
  events_of_path (after_invoke e front c) =
  events_of_path (front ++ [c]) ++ (if is_cubic e then [] else [e]).
Proof.
  destruct e; unfold after_invoke; cbn [is_cubic].
  - rewrite app_assoc.
    change [[{| type := MOVE_TO; to := point_of to0;
                control := {| x := 0; y := 0 |} |}]]
      with [[] ++ [{| type := MOVE_TO; to := point_of to0;
                      control := {| x := 0; y := 0 |} |}]].
    rewrite events_of_path_snoc.
    unfold events_of_path at 1. rewrite concat_app. simpl.
    rewrite !app_nil_r.
    unfold event_of_segment. simpl. rewrite vector_of_point_of. reflexivity.
  - rewrite events_of_path_snoc. unfold event_of_segment. simpl.
    rewrite vector_of_point_of. reflexivity.
  - rewrite events_of_path_snoc. unfold event_of_segment. simpl.
    rewrite !vector_of_point_of. reflexivity.
  - rewrite app_nil_r. reflexivity.
Qed.

Lemma invoke_log (e : outline_event) (path : GlyphPath) :
  is_defined (invoke callbacks e path) = true ->
  exists path',
    invoke callbacks e path = Returns (0, path') /\
    events_of_path path' =
      events_of_path path ++ (if is_cubic e then [] else [e]) /\
    List.length path' =
      (List.length path + (if is_move e then 1 else 0))%nat.
Proof.
  destruct (Vector.empty path) eqn:E.
  - destruct path; [|discriminate]. destruct e; simpl; intros H;
      try discriminate.
    + rewrite MoveToFunc_spec. eexists. split; [reflexivity|].
      unfold events_of_path, event_of_segment. simpl.
      rewrite vector_of_point_of. split; reflexivity.
    + eexists. split; [reflexivity|]. split; reflexivity.
  - intros _. destruct (split_last_nonempty path E) as [front [c ->]].
    exists (after_invoke e front c). split; [apply invoke_open|].
    split; [apply events_of_path_after_invoke|].
    destruct e; unfold after_invoke; cbn [is_move];
      rewrite ?app_assoc, !length_app; simpl; lia.
Qed.

Lemma walk_defined_step (e : outline_event) (rest : list outline_event)
      (path : GlyphPath) :
  is_defined (walk callbacks (e :: rest) path) = true ->
  is_defined (invoke callbacks e path) = true.
Proof.
  simpl. unfold bind. destruct (invoke callbacks e path); auto.
Qed.

Lemma filter_not_cubic_cons (e : outline_event) (rest : list outline_event) :
  filter (fun e => negb (is_cubic e)) (e :: rest) =
  (if is_cubic e then [] else [e]) ++ filter (fun e => negb (is_cubic e)) rest.
Proof. simpl. destruct (is_cubic e); reflexivity. Qed.

Lemma filter_is_move_cons (e : outline_event) (rest : list outline_event) :
  List.length (filter is_move (e :: rest)) =
  ((if is_move e then 1 else 0) + List.length (filter is_move rest))%nat.
Proof. simpl. destruct (is_move e); reflexivity. Qed.

Lemma walk_log (events : list outline_event) :
  forall path,
    is_defined (walk callbacks events path) = true ->
    exists path',
      walk callbacks events path = Returns (0, path') /\
      events_of_path path' =
        events_of_path path ++ filter (fun e => negb (is_cubic e)) events /\
      List.length path' =
        (List.length path + List.length (filter is_move events))%nat.
Proof.
  induction events as [|e rest IH]; intros path H.
  - exists path. simpl. rewrite app_nil_r, Nat.add_0_r. auto.
  - destruct (invoke_log e path (walk_defined_step e rest path H))
      as [p1 [E1 [L1 N1]]].
    rewrite (walk_cons e rest path p1 E1) in H |- *.
    destruct (IH p1 H) as [p2 [E2 [L2 N2]]].
    exists p2. split; [exact E2|]. split.
    + rewrite L2, L1, filter_not_cubic_cons, app_assoc. reflexivity.
    + rewrite N2, N1, filter_is_move_cons. lia.
Qed.

(** X2. The accumulator is a faithful log of the callbacks.  Whenever a
    walk over any accumulator is defined, it returns 0, the segments of the
    path read in storage order are those it held before followed by one
    segment per non-cubic callback, in the order of the callbacks and with
    their points, and the path has gained one contour per [move_to].  From
    the empty accumulator, a walk that respects the protocol can thus be
    read back from its path, cubic events excepted. *)
Theorem path_logs_callbacks :
  (forall (events : list outline_event) (path : GlyphPath),
      is_defined (walk callbacks events path) = true ->
      exists path',
        walk callbacks events path = Returns (0, path') /\
        events_of_path path' =
          events_of_path path ++ filter (fun e => negb (is_cubic e)) events /\
        List.length path' =
          (List.length path + List.length (filter is_move events))%nat) /\
  (forall events : list outline_event,
      respects_protocol events = true ->
      exists path,
        decompose events = Returns (0, path) /\
        events_of_path path = filter (fun e => negb (is_cubic e)) events /\
        List.length path = List.length (filter is_move events)).
Proof.
  split.
  - intros events path. apply walk_log.
  - intros events H. unfold decompose.
    destruct (walk_log events []) as [p [E [L N]]].
    + fold (decompose events). rewrite (decompose_closed_form events H).
      reflexivity.
    + exists p. auto.
Qed.

Lemma path_logs_callbacks_witness :
  (is_defined (walk callbacks [OnLineTo (mkFT_Vector 5 6)]
                 [[mkPathSegment MOVE_TO (mkVectorPoint 1 2)
                                 (mkVectorPoint 0 0)]]) = true /\
   exists path',
     walk callbacks [OnLineTo (mkFT_Vector 5 6)]
       [[mkPathSegment MOVE_TO (mkVectorPoint 1 2) (mkVectorPoint 0 0)]]
     = Returns (0, path') /\
     events_of_path path' =
       events_of_path
         [[mkPathSegment MOVE_TO (mkVectorPoint 1 2) (mkVectorPoint 0 0)]]
       ++ filter (fun e => negb (is_cubic e)) [OnLineTo (mkFT_Vector 5 6)] /\
     List.length path' =
       (List.length
          [[mkPathSegment MOVE_TO (mkVectorPoint 1 2) (mkVectorPoint 0 0)]]
        + List.length (filter is_move [OnLineTo (mkFT_Vector 5 6)]))%nat) /\
  (respects_protocol sample_events = true /\
   exists path,
     decompose sample_events = Returns (0, path) /\
     events_of_path path = filter (fun e => negb (is_cubic e)) sample_events /\
     List.length path = List.length (filter is_move sample_events)).
Proof.
  split; split.
  - reflexivity.
  - apply (proj1 path_logs_callbacks). reflexivity.
  - reflexivity.
  - apply (proj2 path_logs_callbacks). reflexivity.
Defined.

(* ------------------------------------------------------------------ *)
(** ** Where the walk is defined *)

Lemma walk_open_defined (events : list outline_event) (path : GlyphPath) :
  Vector.empty path = false ->
  is_defined (walk callbacks events path) = true.
Proof.
  intros H.
  destruct (walk_keeps (fun _ => true)) with (events := events) (path := path)
    as [p [E _]]; auto.
  - clear. induction path; simpl; auto.
  - rewrite E. reflexivity.
Qed.

(** X3. The walk over an accumulator is defined exactly when a contour is
    already open or the first callback that is not a cubic is a [move_to]
    (or there is none): cubic callbacks open no contour, so a line or a
    conic that follows only cubics on an empty accumulator is as undefined
    as one that comes first. *)
Theorem walk_defined_iff (events : list outline_event) (path : GlyphPath) :
  is_defined (walk callbacks events path) =
  negb (Vector.empty path) ||
  respects_protocol (filter (fun e => negb (is_cubic e)) events).
Proof.
  destruct (Vector.empty path) eqn:E.
  - destruct path; [|discriminate]. clear E. simpl.
    induction events as [|e rest IH]; [reflexivity|].
    destruct e.
    + rewrite (walk_cons (OnMoveTo to0) rest [] _ (MoveToFunc_spec to0 [])).
      simpl. apply walk_open_defined. reflexivity.
    + reflexivity.
    + reflexivity.
    + rewrite (walk_cons (OnCubicTo control1 control2 to0) rest [] []
                 eq_refl).
      exact IH.
  - simpl. apply walk_open_defined, E.
Qed.

Example walk_after_cubic_undefined :
  decompose [OnCubicTo (mkFT_Vector 1 2) (mkFT_Vector 3 4) (mkFT_Vector 5 6);
             OnLineTo (mkFT_Vector 7 8)] = Undefined.
Proof. reflexivity. Qed.

(* ------------------------------------------------------------------ *)
(** ** Every path of the right shape is built by some walk *)

Lemma is_zero_point_eq (p : VectorPoint) :
  is_zero_point p = true -> p = mkVectorPoint 0 0.
Proof.
  destruct p as [px py]. unfold is_zero_point. simpl. intros H.
  apply andb_prop in H as [Hx Hy].
  apply Z.eqb_eq in Hx, Hy. subst. reflexivity.
Qed.

(** Replaying an edge segment appends that very segment. *)
Lemma replay_edge_segment (s : PathSegment) (front : GlyphPath) (c : Contour) :
  is_MoveTo s = false ->
  unused_control_is_zero s = true ->
  invoke callbacks (event_of_segment s) (front ++ [c]) =
  Returns (0, front ++ [c ++ [s]]).
Proof.
  destruct s as [t p q]. unfold is_MoveTo, unused_control_is_zero,
    event_of_segment. simpl. intros Ht Hq. rewrite invoke_open.
  destruct t; [discriminate| |]; simpl.
  - rewrite point_of_vector_of, (is_zero_point_eq q Hq). reflexivity.
  - rewrite !point_of_vector_of. reflexivity.
Qed.

Lemma replay_edge_segments (t : list PathSegment) :
  forall front c rest,
    forallb (fun s => negb (is_MoveTo s)) t = true ->
    forallb unused_control_is_zero t = true ->
    walk callbacks (map event_of_segment t ++ rest) (front ++ [c]) =
    walk callbacks rest (front ++ [c ++ t]).
Proof.
  induction t as [|s t IH]; intros front c rest Hm Hz.
  - simpl. rewrite app_nil_r. reflexivity.
  - simpl in Hm, Hz.
    apply andb_prop in Hm as [Hs Hm]. apply andb_prop in Hz as [Hzs Hz].
    apply negb_true_iff in Hs.
    simpl map. rewrite <- app_comm_cons.
    rewrite (walk_cons _ _ _ _ (replay_edge_segment s front c Hs Hzs)).
    rewrite IH by assumption. rewrite <- app_assoc. reflexivity.
Qed.

Lemma replay_contour (c : Contour) (acc : GlyphPath)
      (rest : list outline_event) :
  one_MoveTo c = true ->
  forallb unused_control_is_zero c = true ->
  walk callbacks (map event_of_segment c ++ rest) acc =
  walk callbacks rest (acc ++ [c]).
Proof.
  unfold one_MoveTo. destruct c as [|s t]; [discriminate|].
  intros H Hz. simpl in H, Hz.
  apply andb_prop in H as [Hs Ht]. apply andb_prop in Hz as [Hzs Hz].
  destruct s as [k p q]. simpl in Hs, Hzs. destruct k; try discriminate.
  unfold unused_control_is_zero in Hzs. simpl in Hzs.
  rewrite (is_zero_point_eq q Hzs).
  change (map event_of_segment
            ({| type := MOVE_TO; to := p; control := {| x := 0; y := 0 |} |}
               :: t) ++ rest)
    with (OnMoveTo (vector_of p) :: (map event_of_segment t ++ rest)).
  rewrite (walk_cons (OnMoveTo (vector_of p)) _ acc _
             (MoveToFunc_spec (vector_of p) acc)).
  rewrite point_of_vector_of.
  rewrite replay_edge_segments by assumption. reflexivity.
Qed.

Lemma replay_path (path : GlyphPath) :
  forall acc,
    forallb one_MoveTo path = true ->
    controls_well_formed path = true ->
    walk callbacks (events_of_path path) acc = Returns (0, acc ++ path).
Proof.
  unfold controls_well_formed.
  induction path as [|c path IH]; intros acc Hm Hz.
  - simpl. rewrite app_nil_r. reflexivity.
  - simpl in Hm, Hz.
    apply andb_prop in Hm as [Hc Hm]. apply andb_prop in Hz as [Hzc Hz].
    unfold events_of_path. simpl List.concat. rewrite map_app.
    rewrite (replay_contour c acc _ Hc Hzc).
    fold (events_of_path path). rewrite IH by assumption.
    rewrite <- app_assoc. reflexivity.
Qed.

(** X5. The two invariants describe exactly the paths the callbacks can
    build: a path in which every contour has one MoveTo segment, at its
    head, and every MoveTo and LineTo segment has the zero control point is
    rebuilt, segment for segment, by replaying its own segments as
    callbacks over the empty accumulator; the replayed sequence respects
    the protocol. *)
Theorem well_formed_path_is_reachable (path : GlyphPath) :
  forallb one_MoveTo path = true ->
  controls_well_formed path = true ->
  respects_protocol (events_of_path path) = true /\
  decompose (events_of_path path) = Returns (0, path).
Proof.
  intros Hm Hz. split.
  - destruct path as [|c path]; [reflexivity|].
    simpl in Hm. apply andb_prop in Hm as [Hc _].
    unfold one_MoveTo in Hc. destruct c as [|s t]; [discriminate|].
    simpl in Hc. apply andb_prop in Hc as [Hs _].
    unfold events_of_path, event_of_segment. simpl.
    destruct (type s); try discriminate. reflexivity.
  - unfold decompose. rewrite replay_path by assumption. reflexivity.
Qed.

Lemma well_formed_path_is_reachable_witness :
  let path :=
    [[mkPathSegment MOVE_TO (mkVectorPoint 1 2) (mkVectorPoint 0 0);
      mkPathSegment CONIC_TO (mkVectorPoint 3 4) (mkVectorPoint 5 6)];
     [mkPathSegment MOVE_TO (mkVectorPoint 7 8) (mkVectorPoint 0 0)]] in
  forallb one_MoveTo path = true /\
  controls_well_formed path = true /\
  respects_protocol (events_of_path path) = true /\
  decompose (events_of_path path) = Returns (0, path).
Proof.
  intros path. split; [reflexivity|]. split; [reflexivity|].
  apply (well_formed_path_is_reachable path); reflexivity.
Defined.

(** A path outside the shape is not rebuilt: a MoveTo segment inside a
    contour splits it. *)
Example replay_splits_at_MoveTo :
  decompose (events_of_path
    [[mkPathSegment MOVE_TO (mkVectorPoint 1 2) (mkVectorPoint 0 0);
      mkPathSegment MOVE_TO (mkVectorPoint 3 4) (mkVectorPoint 0 0)]]) =
  Returns (0,
    [[mkPathSegment MOVE_TO (mkVectorPoint 1 2) (mkVectorPoint 0 0)];
     [mkPathSegment MOVE_TO (mkVectorPoint 3 4) (mkVectorPoint 0 0)]]).
Proof. reflexivity. Qed.

(* ================================================================== *)
(** * Further properties of the renderer *)

Lemma print_segment_state (os : ostream) (s : PathSegment) :
  width (print_segment os s) = 0%nat /\
  adjust (print_segment os s) = adjust_right.
Proof. unfold print_segment. destruct (type s); split; reflexivity. Qed.

Lemma print_segments_state (c : Contour) :
  forall os,
    width os = 0%nat ->
    width (fold_left print_segment c os) = 0%nat /\
    adjust (fold_left print_segment c os) =
      if Vector.empty c then adjust os else adjust_right.
Proof.
  induction c as [|s c IH]; intros os Hw; [auto|].
  simpl fold_left.
  destruct (print_segment_state os s) as [Hw1 Ha1].
  destruct (IH (print_segment os s) Hw1) as [Hw2 Ha2].
  split; [exact Hw2|]. rewrite Ha2, Ha1. simpl. destruct c; reflexivity.
Qed.

Lemma print_contours_state (path : GlyphPath) :
  forall i os,
    width os = 0%nat ->
    width (print_contours path i os) = 0%nat /\
    adjust (print_contours path i os) =
      if Vector.empty (List.concat path) then adjust os else adjust_right.
Proof.
  induction path as [|c path IH]; intros i os Hw; [auto|].
  cbn [print_contours]. cbv zeta.
  match goal with
  | |- context [fold_left print_segment c ?o] =>
      destruct (print_segments_state c o eq_refl) as [Hw1 Ha1];
      destruct (IH (i + 1) (fold_left print_segment c o) Hw1) as [Hw2 Ha2]
  end.
  split; [exact Hw2|]. rewrite Ha2, Ha1. simpl List.concat.
  destruct c as [|s c]; simpl.
  - reflexivity.
  - destruct (Vector.empty (List.concat path)); reflexivity.
Qed.

(** X6. [PrintGlyphPath] changes the formatting state of the stream it
    writes to: whatever width was pending is consumed, and as soon as the
    path holds a segment the stream is left right-adjusted; the adjustment
    is left as found only when there is no segment to print. *)
Theorem PrintGlyphPath_format_state (path : GlyphPath) (os : ostream) :
  width (PrintGlyphPath path os) = 0%nat /\
  adjust (PrintGlyphPath path os) =
    if Vector.empty (List.concat path) then adjust os else adjust_right.
Proof.
  unfold PrintGlyphPath. cbv zeta.
  apply (print_contours_state path 0
           (insert os (Str ("// Extracted Glyph Path:" ++ nl)))).
  reflexivity.
Qed.

(* ------------------------------------------------------------------ *)
(** ** The characters of rendered numbers *)

Lemma all_chars_app (P : ascii -> bool) (a b : string) :
  all_chars P (a ++ b) = all_chars P a && all_chars P b.
Proof.
  induction a as [|c a IH]; simpl; [reflexivity|].
  rewrite IH, andb_assoc. reflexivity.
Qed.

Lemma all_chars_weaken (P Q : ascii -> bool) (s : string) :
  (forall c, P c = true -> Q c = true) ->
  all_chars P s = true -> all_chars Q s = true.
Proof.
  intros HPQ. induction s as [|c s IH]; simpl; [reflexivity|].
  intros H. apply andb_prop in H as [Hc Hs].
  rewrite (HPQ c Hc), (IH Hs). reflexivity.
Qed.

Lemma digits_of_uint (d : Decimal.uint) :
  all_chars is_digit_or_sign (NilEmpty.string_of_uint d) = true.
Proof. induction d; simpl; auto. Qed.

Lemma digits_of_uint_zero (d : Decimal.uint) :
  all_chars is_digit_or_sign (NilZero.string_of_uint d) = true.
Proof. destruct d; try apply digits_of_uint. reflexivity. Qed.

Lemma decimal_digits (z : Z) : all_chars is_digit_or_sign (decimal z) = true.
Proof.
  unfold decimal, NilZero.string_of_int. destruct (Z.to_int z); simpl;
    apply digits_of_uint_zero.
Qed.

Lemma udecimal_digits (n : Z) :
  all_chars is_digit_or_sign (udecimal n) = true.
Proof. unfold udecimal. apply digits_of_uint_zero. Qed.

Lemma string_of_uint_nonempty (d : Decimal.uint) :
  NilZero.string_of_uint d <> EmptyString.
Proof. destruct d; discriminate. Qed.

Lemma decimal_nonempty (z : Z) : decimal z <> EmptyString.
Proof.
  unfold decimal, NilZero.string_of_int. destruct (Z.to_int z).
  - apply string_of_uint_nonempty.
  - discriminate.
Qed.

(** Printing loses nothing: the text of a number determines the number. *)
Lemma decimal_inj (z z' : Z) : decimal z = decimal z' -> z = z'.
Proof.
  unfold decimal. intros H.
  assert (Hn : forall v, Z.to_int v <> Decimal.Pos Decimal.Nil /\
                         Z.to_int v <> Decimal.Neg Decimal.Nil).
  { intros v. destruct v as [|p|p]; simpl; split; try discriminate;
      intros E; injection E as E;
      exact (DecimalPos.Unsigned.to_uint_nonnil p E). }
  apply DecimalZ.to_int_inj.
  apply (f_equal NilZero.int_of_string) in H.
  rewrite !NilZero.isi in H by apply Hn.
  injection H as H. exact H.
Qed.

Lemma spaces_field (n : nat) : all_chars is_field_char (spaces n) = true.
Proof. induction n; simpl; auto. Qed.

Lemma right_align_field (w : nat) (s : string) :
  all_chars is_digit_or_sign s = true ->
  all_chars is_field_char (right_align w s) = true.
Proof.
  intros H. unfold right_align. rewrite all_chars_app, spaces_field.
  apply (all_chars_weaken is_digit_or_sign); [|exact H].
  intros c Hc. unfold is_field_char. rewrite Hc. reflexivity.
Qed.

Lemma count_char_app (d : ascii) (a b : string) :
  count_char d (a ++ b) = (count_char d a + count_char d b)%nat.
Proof.
  induction a as [|c a IH]; simpl; [reflexivity|]. rewrite IH. lia.
Qed.

Lemma count_char_absent (P : ascii -> bool) (d : ascii) (s : string) :
  P d = false -> all_chars P s = true -> count_char d s = 0%nat.
Proof.
  intros Hd. induction s as [|c s IH]; simpl; [reflexivity|].
  intros H. apply andb_prop in H as [Hc Hs]. rewrite (IH Hs).
  destruct (Ascii.eqb_spec c d) as [->|_]; [congruence | reflexivity].
Qed.

Lemma count_lines_field (s : string) :
  all_chars is_field_char s = true -> count_lines s = 0%nat.
Proof. apply (count_char_absent is_field_char). reflexivity. Qed.

Lemma count_lines_app (a b : string) :
  count_lines (a ++ b) = (count_lines a + count_lines b)%nat.
Proof. apply count_char_app. Qed.

Lemma count_lines_point (p : VectorPoint) :
  count_lines (rendered_point p) = 0%nat.
Proof.
  unfold rendered_point.
  rewrite !count_lines_app,
    !(count_lines_field (right_align 5 _))
    by (apply right_align_field, decimal_digits).
  reflexivity.
Qed.

Lemma count_lines_segment (s : PathSegment) :
  count_lines (rendered_segment s) = 1%nat.
Proof.
  unfold rendered_segment.
  destruct (type s); rewrite !count_lines_app, !count_lines_point;
    reflexivity.
Qed.

Lemma count_lines_segments (c : Contour) :
  count_lines (rendered_segments c) = List.length c.
Proof.
  induction c as [|s c IH]; [reflexivity|].
  cbn [rendered_segments List.length].
  rewrite count_lines_app, count_lines_segment, IH. reflexivity.
Qed.

Lemma count_lines_contours (path : GlyphPath) :
  forall i,
    count_lines (rendered_contours i path) =
    (List.length path + List.length (List.concat path))%nat.
Proof.
  induction path as [|c path IH]; intros i; [reflexivity|].
  cbn [rendered_contours]. unfold rendered_contour.
  rewrite !count_lines_app, IH, count_lines_segments.
  rewrite (count_lines_field (right_align 2 _))
    by (apply right_align_field, udecimal_digits).
  cbn [List.concat List.length]. rewrite length_app.
  change (count_lines "   Contour #") with 0%nat.
  change (count_lines nl) with 1%nat. lia.
Qed.

(** X7. [PrintGlyphPath] writes one line for the heading, one line per
    contour and one line per segment, whatever the coordinates: to a stream
    in its initial formatting state it adds exactly
    [1 + contours + segments] newline characters. *)
Theorem PrintGlyphPath_line_count (path : GlyphPath) (written : string) :
  count_lines
    (buf (PrintGlyphPath path
            {| buf := written; width := 0; adjust := adjust_unset |})) =
  (count_lines written
   + (1 + List.length path + List.length (List.concat path)))%nat.
Proof.
  rewrite PrintGlyphPath_spec by reflexivity. cbn [buf].
  unfold rendered_path.
  rewrite !count_lines_app, count_lines_contours. reflexivity.
Qed.

(* ------------------------------------------------------------------ *)
(** ** The rendering determines the path *)

Lemma append_cancel_l (a u v : string) :
  (a ++ u)%string = (a ++ v)%string -> u = v.
Proof.
  induction a as [|c a IH]; simpl; intros H; [exact H|].
  injection H as H. exact (IH H).
Qed.

(** A field ends at the first character that cannot be part of one. *)
Lemma field_split (a : string) :
  forall a' d d' r r',
    all_chars is_field_char a = true ->
    all_chars is_field_char a' = true ->
    is_field_char d = false ->
    is_field_char d' = false ->
    (a ++ String d r)%string = (a' ++ String d' r')%string ->
    a = a' /\ r = r'.
Proof.
  induction a as [|c a IH]; intros a' d d' r r' Ha Ha' Hd Hd' H;
    destruct a' as [|c' a']; simpl in *.
  - injection H as _ H. auto.
  - injection H as Hc _. subst c'.
    apply andb_prop in Ha' as [Hc _]. congruence.
  - injection H as Hc _. subst c.
    apply andb_prop in Ha as [Hc _]. congruence.
  - injection H as Hc H. subst c'.
    apply andb_prop in Ha as [_ Ha]. apply andb_prop in Ha' as [_ Ha'].
    destruct (IH a' d d' r r' Ha Ha' Hd Hd' H) as [-> ->]. auto.
Qed.

Lemma strip_spaces (k : nat) :
  forall k' s s',
    all_chars is_digit_or_sign s = true -> s <> EmptyString ->
    all_chars is_digit_or_sign s' = true -> s' <> EmptyString ->
    (spaces k ++ s)%string = (spaces k' ++ s')%string -> s = s'.
Proof.
  induction k as [|k IH]; intros k' s s' Hs Hn Hs' Hn' H;
    destruct k' as [|k']; simpl in H.
  - exact H.
  - destruct s as [|c s]; [congruence|]. injection H as Hc _. subst c.
    simpl in Hs. discriminate.
  - destruct s' as [|c s']; [congruence|]. injection H as Hc _. subst c.
    simpl in Hs'. discriminate.
  - injection H as H. exact (IH k' s s' Hs Hn Hs' Hn' H).
Qed.

Lemma right_align_decimal_inj (w : nat) (z z' : Z) :
  right_align w (decimal z) = right_align w (decimal z') -> z = z'.
Proof.
  unfold right_align. intros H. apply decimal_inj.
  apply (strip_spaces _ _ _ _ (decimal_digits z) (decimal_nonempty z)
           (decimal_digits z') (decimal_nonempty z') H).
Qed.

Lemma point_fields_inj (a b a' b' r r' : string) :
  all_chars is_field_char a = true -> all_chars is_field_char b = true ->
  all_chars is_field_char a' = true -> all_chars is_field_char b' = true ->
  (("(" ++ a ++ ", " ++ b ++ ")") ++ r)%string =
  (("(" ++ a' ++ ", " ++ b' ++ ")") ++ r')%string ->
  a = a' /\ b = b' /\ r = r'.
Proof.
  intros Ha Hb Ha' Hb' H.
  rewrite !append_assoc in H. simpl in H. injection H as H.
  destruct (field_split a a' ","%char ","%char _ _ Ha Ha' eq_refl eq_refl H)
    as [E H1].
  injection H1 as H1.
  destruct (field_split b b' ")"%char ")"%char _ _ Hb Hb' eq_refl eq_refl H1)
    as [E' H2].
  auto.
Qed.

Lemma rendered_point_inj (p p' : VectorPoint) (r r' : string) :
  (rendered_point p ++ r)%string = (rendered_point p' ++ r')%string ->
  p = p' /\ r = r'.
Proof.
  unfold rendered_point. intros H.
  apply point_fields_inj in H;
    try (apply right_align_field, decimal_digits).
  destruct H as [Hx [Hy Hr]].
  apply right_align_decimal_inj in Hx, Hy.
  destruct p, p'. simpl in *. subst. auto.
Qed.

Lemma rendered_segment_start (s : PathSegment) :
  exists t, rendered_segment s = ("      " ++ t)%string.
Proof.
  unfold rendered_segment. destruct (type s); eexists; reflexivity.
Qed.

Lemma labels_differ (u v : string) :
  ("      MoveTo " ++ u)%string <> ("      LineTo " ++ v)%string /\
  ("      MoveTo " ++ u)%string <> ("      QuadTo " ++ v)%string /\
  ("      LineTo " ++ u)%string <> ("      QuadTo " ++ v)%string.
Proof. repeat split; simpl; discriminate. Qed.

Lemma rendered_segment_inj (s s' : PathSegment) (r r' : string) :
  (rendered_segment s ++ r)%string = (rendered_segment s' ++ r')%string ->
  same_used_fields s s' /\ r = r'.
Proof.
  unfold rendered_segment, same_used_fields. intros H.
  destruct (type s) eqn:T, (type s') eqn:T';
    rewrite !append_assoc in H;
    try (exfalso;
         first [ exact (proj1 (labels_differ _ _) H)
               | exact (proj1 (labels_differ _ _) (eq_sym H))
               | exact (proj1 (proj2 (labels_differ _ _)) H)
               | exact (proj1 (proj2 (labels_differ _ _)) (eq_sym H))
               | exact (proj2 (proj2 (labels_differ _ _)) H)
               | exact (proj2 (proj2 (labels_differ _ _)) (eq_sym H)) ]).
  - apply append_cancel_l, rendered_point_inj in H as [Hto H].
    apply append_cancel_l in H. repeat split; auto. discriminate.
  - apply append_cancel_l, rendered_point_inj in H as [Hto H].
    apply append_cancel_l in H. repeat split; auto. discriminate.
  - apply append_cancel_l, rendered_point_inj in H as [Hc H].
    apply append_cancel_l, rendered_point_inj in H as [Hto H].
    apply append_cancel_l in H. repeat split; auto.
Qed.

Lemma segment_line_not_after (s : PathSegment) (u rest : string) :
  after_segments rest -> rest <> (rendered_segment s ++ u)%string.
Proof.
  destruct (rendered_segment_start s) as [t ->].
  intros [-> | [v ->]]; simpl; discriminate.
Qed.

Lemma rendered_segments_inj (c : Contour) :
  forall c' r r',
    after_segments r -> after_segments r' ->
    (rendered_segments c ++ r)%string = (rendered_segments c' ++ r')%string ->
    Forall2 same_used_fields c c' /\ r = r'.
Proof.
  induction c as [|s c IH]; intros c' r r' Hr Hr' H;
    destruct c' as [|s' c']; cbn [rendered_segments] in H.
  - split; [constructor | exact H].
  - rewrite append_assoc in H.
    exfalso. exact (segment_line_not_after s' _ r Hr H).
  - rewrite append_assoc in H.
    exfalso. exact (segment_line_not_after s _ r' Hr' (eq_sym H)).
  - rewrite !append_assoc in H.
    apply rendered_segment_inj in H as [Hs H].
    destruct (IH c' r r' Hr Hr' H) as [Hc E].
    split; [constructor; assumption | exact E].
Qed.

Lemma after_segments_contours (i : Z) (path : GlyphPath) :
  after_segments (rendered_contours i path).
Proof.
  destruct path as [|c path]; [left; reflexivity|].
  right. cbn [rendered_contours]. unfold rendered_contour.
  rewrite append_assoc. eexists. reflexivity.
Qed.

Lemma rendered_contours_inj (p : GlyphPath) :
  forall p' i,
    rendered_contours i p = rendered_contours i p' ->
    Forall2 (Forall2 same_used_fields) p p'.
Proof.
  induction p as [|c p IH]; intros p' i H; destruct p' as [|c' p'].
  - constructor.
  - exfalso. destruct (after_segments_contours i (c' :: p')) as [E | [t E]];
      rewrite E in H; discriminate.
  - exfalso. destruct (after_segments_contours i (c :: p)) as [E | [t E]];
      rewrite E in H; discriminate.
  - cbn [rendered_contours] in H. unfold rendered_contour in H.
    rewrite !append_assoc in H.
    do 3 apply append_cancel_l in H.
    apply rendered_segments_inj in H as [Hc H];
      try apply after_segments_contours.
    constructor; [exact Hc | exact (IH p' (i + 1) H)].
Qed.

(** X8. The rendering loses nothing that it shows: written to a stream in
    its initial formatting state, two paths give the same text exactly when
    they have the same contours with the same segments up to the control
    points of MoveTo and LineTo segments, which are not printed.  Kinds,
    end points, conic control points and the division into contours can
    all be read back from the text. *)
Theorem PrintGlyphPath_injective (p p' : GlyphPath) (written : string) :
  buf (PrintGlyphPath p
         {| buf := written; width := 0; adjust := adjust_unset |}) =
  buf (PrintGlyphPath p'
         {| buf := written; width := 0; adjust := adjust_unset |}) <->
  Forall2 (Forall2 same_used_fields) p p'.
Proof.
  split.
  - rewrite !PrintGlyphPath_spec by reflexivity. cbn [buf].
    unfold rendered_path. intros H.
    do 3 apply append_cancel_l in H.
    exact (rendered_contours_inj p p' 1 H).
  - intros H. unfold PrintGlyphPath.
    rewrite (print_contours_same_used_fields p p' H). reflexivity.
Qed.

Lemma PrintGlyphPath_injective_witness :
  let p := [[mkPathSegment MOVE_TO (mkVectorPoint 1 2) (mkVectorPoint 0 0)]] in
  let p' := [[mkPathSegment MOVE_TO (mkVectorPoint 1 2) (mkVectorPoint 9 9)]] in
  buf (PrintGlyphPath p
         {| buf := EmptyString; width := 0; adjust := adjust_unset |}) =
  buf (PrintGlyphPath p'
         {| buf := EmptyString; width := 0; adjust := adjust_unset |}) /\
  Forall2 (Forall2 same_used_fields) p p'.
Proof.
  intros p p'. split; [reflexivity|].
  apply (proj1 (PrintGlyphPath_injective p p' EmptyString)). reflexivity.
Defined.

(* ------------------------------------------------------------------ *)
(** ** Aligned columns *)

Lemma all_from_spec (P : Z -> bool) :
  forall n lo,
    all_from P lo n = true ->
    forall z, lo <= z < lo + Z.of_nat n -> P z = true.
Proof.
  induction n as [|n IH]; intros lo H z Hz; [lia|].
  simpl in H. apply andb_prop in H as [H0 H1].
  destruct (Z.eq_dec z lo) as [->|Hne]; [exact H0|].
  apply (IH (lo + 1) H1). lia.
Qed.

Lemma decimal_fits_checked :
  all_from (fun z => (String.length (decimal z) <=? 5)%nat)
           (-9999) (Z.to_nat 109999) = true.
Proof. vm_compute. reflexivity. Qed.

Lemma decimal_fits (z : Z) :
  coordinate_fits z = true -> (String.length (decimal z) <= 5)%nat.
Proof.
  unfold coordinate_fits. intros H. apply andb_prop in H as [Hlo Hhi].
  apply Z.leb_le in Hlo, Hhi.
  apply Nat.leb_le.
  apply (all_from_spec _ _ _ decimal_fits_checked z). lia.
Qed.

Lemma rendered_point_length (p : VectorPoint) :
  point_fits p = true -> String.length (rendered_point p) = 14%nat.
Proof.
  unfold point_fits, rendered_point. intros H.
  apply andb_prop in H as [Hx Hy].
  apply decimal_fits in Hx, Hy.
  rewrite !length_append, !right_align_length. simpl String.length. lia.
Qed.

Lemma rendered_segment_length (s : PathSegment) :
  segment_fits s = true ->
  String.length (rendered_segment s) = segment_line_length s.
Proof.
  unfold segment_fits, rendered_segment, segment_line_length.
  destruct (type s); intros H.
  - rewrite !length_append, (rendered_point_length _ H). reflexivity.
  - rewrite !length_append, (rendered_point_length _ H). reflexivity.
  - apply andb_prop in H as [Hc Ht].
    rewrite !length_append, (rendered_point_length _ Hc),
      (rendered_point_length _ Ht). reflexivity.
Qed.

(** The converse: a decimal text of [n] digits denotes a number below
    [10 ^ n]. *)
Lemma of_uint_acc_bound (d : Decimal.uint) :
  forall acc,
    Z.pos (Pos.of_uint_acc d acc) <
    (Z.pos acc + 1) * 10 ^ Z.of_nat (Decimal.nb_digits d).
Proof.
  induction d; intros acc; cbn [Pos.of_uint_acc Decimal.nb_digits];
    [simpl; lia | ..];
    (rewrite Nat2Z.inj_succ, Z.pow_succ_r by lia;
     match goal with
     | |- Z.pos (Pos.of_uint_acc _ ?a) < _ => specialize (IHd a)
     end;
     assert (0 < 10 ^ Z.of_nat (Decimal.nb_digits d))
       by (apply Z.pow_pos_nonneg; lia);
     apply (Z.lt_le_trans _ _ _ IHd);
     rewrite Z.mul_assoc;
     apply Z.mul_le_mono_nonneg_r; lia).
Qed.

Lemma of_uint_bound (d : Decimal.uint) :
  Z.of_N (Pos.of_uint d) < 10 ^ Z.of_nat (Decimal.nb_digits d).
Proof.
  induction d; cbn [Pos.of_uint Decimal.nb_digits];
    [simpl; lia | ..];
    rewrite Nat2Z.inj_succ, Z.pow_succ_r by lia;
    assert (0 < 10 ^ Z.of_nat (Decimal.nb_digits d))
      by (apply Z.pow_pos_nonneg; lia);
    [lia | ..];
    match goal with
    | |- Z.of_N (N.pos (Pos.of_uint_acc _ ?a)) < _ =>
        pose proof (of_uint_acc_bound d a)
    end;
    cbn [Z.of_N]; lia.
Qed.

Lemma length_string_of_uint (d : Decimal.uint) :
  String.length (NilEmpty.string_of_uint d) = Decimal.nb_digits d.
Proof. induction d; simpl; congruence. Qed.

Lemma positive_below_pow (p : positive) :
  Z.pos p <
  10 ^ Z.of_nat (String.length (NilZero.string_of_uint (Pos.to_uint p))).
Proof.
  pose proof (of_uint_bound (Pos.to_uint p)) as H.
  rewrite DecimalPos.Unsigned.of_to in H. cbn [Z.of_N] in H.
  destruct (Pos.to_uint p) eqn:E;
    try (unfold NilZero.string_of_uint; rewrite length_string_of_uint;
         exact H).
  exfalso. exact (DecimalPos.Unsigned.to_uint_nonnil p E).
Qed.

Lemma pow10_le (n m : nat) : (n <= m)%nat -> 10 ^ Z.of_nat n <= 10 ^ Z.of_nat m.
Proof. intros H. apply Z.pow_le_mono_r; lia. Qed.

Lemma decimal_short_fits (z : Z) :
  (String.length (decimal z) <= 5)%nat -> coordinate_fits z = true.
Proof.
  unfold coordinate_fits, decimal. intros H.
  apply andb_true_intro. rewrite !Z.leb_le.
  destruct z as [|p|p]; cbn [Z.to_int NilZero.string_of_int] in H.
  - lia.
  - pose proof (positive_below_pow p) as Hp.
    pose proof (pow10_le _ 5 H) as Hm.
    change (10 ^ Z.of_nat 5) with 100000 in Hm. lia.
  - cbn [String.length] in H.
    pose proof (positive_below_pow p) as Hp.
    assert (H4 : (String.length
                    (NilZero.string_of_uint (Pos.to_uint p)) <= 4)%nat)
      by lia.
    pose proof (pow10_le _ 4 H4) as Hm.
    change (10 ^ Z.of_nat 4) with 10000 in Hm. lia.
Qed.

Lemma decimal_fits_iff (z : Z) :
  coordinate_fits z = true <-> (String.length (decimal z) <= 5)%nat.
Proof. split; [apply decimal_fits | apply decimal_short_fits]. Qed.

Lemma rendered_point_too_long (p : VectorPoint) :
  (14 <= String.length (rendered_point p))%nat /\
  (point_fits p = false -> (14 < String.length (rendered_point p))%nat).
Proof.
  unfold point_fits, rendered_point.
  rewrite !length_append, !right_align_length. simpl String.length.
  split; [lia|]. intros H. apply andb_false_iff in H.
  destruct H as [H|H];
    [destruct (Nat.le_gt_cases (String.length (decimal (x p))) 5) as [L|L]
    |destruct (Nat.le_gt_cases (String.length (decimal (y p))) 5) as [L|L]];
    try (apply decimal_short_fits in L; congruence); lia.
Qed.

Lemma rendered_segment_too_long (s : PathSegment) :
  segment_fits s = false ->
  (segment_line_length s < String.length (rendered_segment s))%nat.
Proof.
  unfold segment_fits, rendered_segment, segment_line_length.
  destruct (type s); intros H; rewrite !length_append.
  - pose proof (proj2 (rendered_point_too_long (to s)) H) as HL.
    set (L := String.length (rendered_point (to s))) in *. clearbody L.
    simpl String.length. lia.
  - pose proof (proj2 (rendered_point_too_long (to s)) H) as HL.
    set (L := String.length (rendered_point (to s))) in *. clearbody L.
    simpl String.length. lia.
  - pose proof (rendered_point_too_long (control s)) as [Gc Lc].
    pose proof (rendered_point_too_long (to s)) as [Gt Lt].
    apply andb_false_iff in H. destruct H as [H|H];
      [specialize (Lc H) | specialize (Lt H)];
      set (L := String.length (rendered_point (to s))) in *;
      set (K := String.length (rendered_point (control s))) in *;
      clearbody L K; simpl String.length; lia.
Qed.

(** X9. The columns line up exactly as long as the coordinates are between
    -9999 and 99999.  When all the coordinates a segment line shows are in
    that range, the line is 28 characters long for a MoveTo or LineTo
    segment and 43 for a QuadTo segment, newline included; when one of them
    is outside it, its field grows beyond width 5 and the line is longer
    than that. *)
Theorem print_segment_fixed_width (os : ostream) (s : PathSegment) :
  width os = 0%nat ->
  (segment_fits s = true ->
   String.length (buf (print_segment os s)) =
   (String.length (buf os) + segment_line_length s)%nat) /\
  (segment_fits s = false ->
   (String.length (buf os) + segment_line_length s <
    String.length (buf (print_segment os s)))%nat).
Proof.
  intros Hw. rewrite (print_segment_spec os s Hw). cbn [buf].
  rewrite length_append. split; intros Hs.
  - rewrite (rendered_segment_length s Hs). reflexivity.
  - pose proof (rendered_segment_too_long s Hs). lia.
Qed.

Lemma print_segment_fixed_width_witness :
  width fresh_ostream = 0%nat /\
  (segment_fits (mkPathSegment CONIC_TO (mkVectorPoint (-9999) 99999)
                               (mkVectorPoint 7 0)) = true /\
   String.length
     (buf (print_segment fresh_ostream
             (mkPathSegment CONIC_TO (mkVectorPoint (-9999) 99999)
                            (mkVectorPoint 7 0)))) =
   (String.length (buf fresh_ostream)
    + segment_line_length
        (mkPathSegment CONIC_TO (mkVectorPoint (-9999) 99999)
                       (mkVectorPoint 7 0)))%nat) /\
  (segment_fits (mkPathSegment LINE_TO (mkVectorPoint (-10000) 5)
                               (mkVectorPoint 0 0)) = false /\
   (String.length (buf fresh_ostream)
    + segment_line_length
        (mkPathSegment LINE_TO (mkVectorPoint (-10000) 5)
                       (mkVectorPoint 0 0)) <
    String.length
      (buf (print_segment fresh_ostream
              (mkPathSegment LINE_TO (mkVectorPoint (-10000) 5)
                             (mkVectorPoint 0 0)))))%nat).
Proof.
  split; [reflexivity|]. split; (split; [reflexivity|]).
  - apply (proj1 (print_segment_fixed_width fresh_ostream
                    (mkPathSegment CONIC_TO (mkVectorPoint (-9999) 99999)
                                   (mkVectorPoint 7 0)) eq_refl)).
    reflexivity.
  - apply (proj2 (print_segment_fixed_width fresh_ostream
                    (mkPathSegment LINE_TO (mkVectorPoint (-10000) 5)
                                   (mkVectorPoint 0 0)) eq_refl)).
    reflexivity.
Defined.

(** Outside that range a line is longer. *)
Example print_segment_wide :
  String.length
    (buf (print_segment fresh_ostream
            (mkPathSegment LINE_TO (mkVectorPoint (-10000) 100000)
                           (mkVectorPoint 0 0)))) = 30%nat.
Proof. vm_compute. reflexivity. Qed.

(* ================================================================== *)
(** * Further properties of main *)

(** With a program name in [argv[0]], [main] is undefined only when every
    stage up to the outline walk has succeeded and the walk itself is
    undefined. *)
Lemma main_defined_iff (ft : FreeType) (argv0 : string) (args : list string) :
  is_defined (main ft argv0 args) =
  match first_failure ft args with
  | None | Some DecompositionError => is_defined (decompose (outline_events ft))
  | Some _ => true
  end.
Proof.
  unfold main, first_failure. cbv zeta. rewrite argc_test.
  do 7 (stage; [reflexivity|]).
  unfold FT_Outline_Decompose, bind, decompose.
  destruct (walk callbacks (outline_events ft) []) as [[r p]|].
  - destruct (r =? 0); unfold ret;
      repeat (stage; try reflexivity).
  - destruct (negb (outline_status ft =? 0)); reflexivity.
Qed.

(** X10. Over every argument vector, [main] has undefined behaviour in
    exactly two situations: it is started with no arguments at all, not
    even a program name ([argc] is 0 and the usage message inserts the null
    [argv[0]] into [std::cerr]), or every stage up to the outline walk has
    succeeded and the walk itself is undefined, that is, the engine makes a
    line or conic callback before any [move_to].  Every other run is
    defined, whatever the outline. *)
Theorem main_argv_defined_iff (ft : FreeType) (argv : list string) :
  is_defined (main_argv ft argv) =
  match argv with
  | [] => false
  | _ :: args =>
      match first_failure ft args with
      | None | Some DecompositionError =>
          is_defined (decompose (outline_events ft))
      | Some _ => true
      end
  end.
Proof.
  destruct argv as [|argv0 args]; [reflexivity|].
  apply main_defined_iff.
Qed.

(** X11. When a stage before the outline walk fails, the callbacks are
    never run: the exit code is 1 and the whole result of [main] is the same
    for every outline the engine could hold, malformed ones included. *)
Theorem main_fails_before_walk
        (ft : FreeType) (argv0 : string) (args : list string) (f : failure)
        (events : list outline_event) (status : Z) :
  first_failure ft args = Some f ->
  f <> DecompositionError ->
  (exists w, main ft argv0 args = Returns (1, w)) /\
  main (set_outline ft events status) argv0 args = main ft argv0 args.
Proof.
  unfold main, first_failure. cbv zeta. rewrite !argc_test.
  cbn [set_outline FT_Init_FreeType FT_New_Face FT_Get_Char_Index
       FT_Load_Glyph glyph_format FT_Err_Unknown_File_Format
       FT_GLYPH_FORMAT_OUTLINE FT_LOAD_NO_SCALE FT_LOAD_NO_HINTING
       char_is_signed ULONG_MAX FT_ULong_of_char].
  unfold FT_ULong_of_char.
  cbn [set_outline char_is_signed ULONG_MAX].
  do 7 (stage; [intros _ _; split; [eexists; reflexivity | reflexivity]|]).
  destruct (negb (outline_status ft =? 0)); intros H Hf.
  - injection H as <-. congruence.
  - discriminate.
Qed.

Lemma main_fails_before_walk_witness :
  first_failure sample_engine ["font.ttf"; "z"]%string = Some GlyphNotFound /\
  GlyphNotFound <> DecompositionError /\
  (exists w,
      main sample_engine "get_char" ["font.ttf"; "z"]%string
      = Returns (1, w)) /\
  main (set_outline sample_engine [OnLineTo (mkFT_Vector 1 2)] 0)
       "get_char" ["font.ttf"; "z"]%string =
  main sample_engine "get_char" ["font.ttf"; "z"]%string.
Proof.
  split; [reflexivity|]. split; [discriminate|].
  apply (main_fails_before_walk sample_engine "get_char"
           ["font.ttf"; "z"]%string GlyphNotFound).
  - reflexivity.
  - discriminate.
Defined.

(** X12. [main] hands back exactly what it acquired, in reverse order of
    acquisition: nothing when it stops before the library is initialised,
    the library alone when the font cannot be opened, and from then on, on
    failure and on success alike, the face first and the library second. *)
Theorem main_teardown (ft : FreeType) (argv0 : string) (args : list string) :
  respects_protocol (outline_events ft) = true ->
  exists code w,
    main ft argv0 args = Returns (code, w) /\
    released w = expected_teardown (first_failure ft args).
Proof.
  intros H.
  destruct (FT_Outline_Decompose_spec ft H) as [path [Hd HD]].
  unfold main, first_failure. cbv zeta.
  rewrite argc_test, HD.
  do 8 (stage; [eexists; eexists; split; reflexivity|]).
  eexists; eexists; split; reflexivity.
Qed.

Lemma main_teardown_witness :
  respects_protocol (outline_events sample_engine) = true /\
  exists code w,
    main sample_engine "get_char" ["missing.ttf"; "A"]%string
    = Returns (code, w) /\
    released w =
      expected_teardown
        (first_failure sample_engine ["missing.ttf"; "A"]%string).
Proof.
  split; [reflexivity|].
  apply (main_teardown sample_engine "get_char" ["missing.ttf"; "A"]%string).
  reflexivity.
Defined.

Example main_font_open_error :
  match main sample_engine "get_char" ["missing.ttf"; "A"]%string with
  | Returns (code, w) => (code, buf (cout w), buf (cerr w), released w)
  | Undefined => (-1, ""%string, ""%string, [])
  end =
  (1, ""%string,
"Error: Could not open or process font file: missing.ttf
"%string,
   [Done_FreeType]).
Proof. vm_compute. reflexivity. Qed.

Lemma pad_number_no_width (s : string) : pad_number 0 adjust_unset s = s.
Proof. reflexivity. Qed.

Ltac run_cerr :=
  cbv [cerr cout on_cerr on_cout FT_Done_Face FT_Done_FreeType initial_world
       fresh_ostream insert emit buf width adjust];
  rewrite ?pad_text_no_width, ?pad_number_no_width, ?append_assoc.

(** X13. A run writes to one stream only.  On success standard error stays
    empty and standard output holds the line naming the character and the
    font path, followed by the rendering of the complete path; on failure
    standard output stays empty and standard error holds a diagnostic that
    starts with [Usage: ] for a wrong argument count and with [Error: ] for
    every other failure. *)
Theorem main_streams (ft : FreeType) (argv0 : string) (args : list string) :
  respects_protocol (outline_events ft) = true ->
  exists code w,
    main ft argv0 args = Returns (code, w) /\
    match first_failure ft args with
    | None =>
        buf (cerr w) = EmptyString /\
        exists path,
          decompose (outline_events ft) = Returns (0, path) /\
          buf (cout w) =
            (success_line (first_char (nth 1 args EmptyString))
                          (nth 0 args EmptyString)
               ++ rendered_path path)%string
    | Some f =>
        buf (cout w) = EmptyString /\
        starts_with (diagnostic_prefix f) (buf (cerr w)) = true
    end.
Proof.
  intros H.
  destruct (FT_Outline_Decompose_spec ft H) as [path [Hd HD]].
  unfold main, first_failure. cbv zeta.
  rewrite argc_test, HD.
  do 8 (stage;
        [eexists; eexists; split; [reflexivity|];
         split; [reflexivity | run_cerr; reflexivity]|]).
  eexists; eexists; split; [reflexivity|]. split; [reflexivity|].
  exists path. split; [exact Hd|].
  cbn [cout FT_Done_FreeType FT_Done_Face on_cout initial_world].
  rewrite PrintGlyphPath_spec by reflexivity.
  f_equal.
Qed.

Lemma main_streams_witness :
  respects_protocol (outline_events sample_engine) = true /\
  exists code w,
    main sample_engine "get_char" ["font.ttf"; "A"]%string
    = Returns (code, w) /\
    buf (cerr w) = EmptyString /\
    exists path,
      decompose (outline_events sample_engine) = Returns (0, path) /\
      buf (cout w) =
        (success_line "A" "font.ttf" ++ rendered_path path)%string.
Proof.
  split; [reflexivity|].
  apply (main_streams sample_engine "get_char" ["font.ttf"; "A"]%string).
  reflexivity.
Defined.

Lemma nat_of_ascii_byte (c : ascii) : 0 <= Z.of_nat (nat_of_ascii c) < 256.
Proof.
  pose proof (nat_ascii_bounded c). lia.
Qed.

(** X14. Where plain [char] is signed, a first byte of 0x80 or above is
    sign-extended by the cast to [FT_ULong]: the code handed to the engine
    lies above the Unicode range (given an [unsigned long] of 32 bits or
    more), never at the byte's own value.  With an engine that maps no code
    beyond 0x10FFFF, such a character argument always ends in the
    glyph-not-found failure, exit code 1, once the font has been opened. *)
Theorem main_non_ascii_character
        (ft : FreeType) (argv0 font : string) (c : ascii) (rest : string) :
  char_is_signed ft = true ->
  4294967295 <= ULONG_MAX ft ->
  (forall code, 1114111 < code -> FT_Get_Char_Index ft code = 0) ->
  128 <= Z.of_nat (nat_of_ascii c) ->
  FT_Init_FreeType ft = 0 ->
  FT_New_Face ft font 0 = 0 ->
  FT_Err_Unknown_File_Format ft <> 0 ->
  1114111 < FT_ULong_of_char ft c /\
  first_failure ft [font; String c rest] = Some GlyphNotFound /\
  exists w, main ft argv0 [font; String c rest] = Returns (1, w).
Proof.
  intros Hs Hmax Hmap Hc Hinit Hopen Hfmt.
  assert (Hcode : 1114111 < FT_ULong_of_char ft c).
  { unfold FT_ULong_of_char. rewrite Hs.
    destruct (Z.leb_spec 128 (Z.of_nat (nat_of_ascii c))); simpl; [|lia].
    pose proof (nat_of_ascii_byte c). lia. }
  split; [exact Hcode|].
  assert (Efmt : (0 =? FT_Err_Unknown_File_Format ft) = false)
    by (apply Z.eqb_neq; congruence).
  unfold main, first_failure. cbv zeta. rewrite argc_test.
  cbn [List.length Nat.eqb negb nth first_char].
  rewrite Hinit, Hopen, (Hmap _ Hcode), Efmt.
  change (0 =? 0) with true. cbn [negb].
  split; [reflexivity | eexists; reflexivity].
Qed.

Lemma main_non_ascii_character_witness :
  char_is_signed sample_engine = true /\
  4294967295 <= ULONG_MAX sample_engine /\
  (forall code, 1114111 < code -> FT_Get_Char_Index sample_engine code = 0) /\
  128 <= Z.of_nat (nat_of_ascii (ascii_of_nat 233)) /\
  FT_Init_FreeType sample_engine = 0 /\
  FT_New_Face sample_engine "font.ttf" 0 = 0 /\
  FT_Err_Unknown_File_Format sample_engine <> 0 /\
  1114111 < FT_ULong_of_char sample_engine (ascii_of_nat 233) /\
  first_failure sample_engine
    ["font.ttf"; String (ascii_of_nat 233) "t"]%string = Some GlyphNotFound /\
  exists w,
    main sample_engine "get_char"
      ["font.ttf"; String (ascii_of_nat 233) "t"]%string = Returns (1, w).
Proof.
  assert (Hmap : forall code, 1114111 < code ->
                              FT_Get_Char_Index sample_engine code = 0).
  { intros code H. simpl. destruct (Z.eqb_spec code 65); [lia | reflexivity]. }
  split; [reflexivity|]. split; [vm_compute; discriminate|].
  split; [exact Hmap|]. split; [vm_compute; discriminate|].
  split; [reflexivity|]. split; [reflexivity|]. split; [discriminate|].
  apply (main_non_ascii_character sample_engine "get_char" "font.ttf"
           (ascii_of_nat 233) "t").
  - reflexivity.
  - vm_compute; discriminate.
  - exact Hmap.
  - vm_compute; discriminate.
  - reflexivity.
  - reflexivity.
  - discriminate.
Defined.

Example non_ascii_code :
  FT_ULong_of_char sample_engine (ascii_of_nat 233) = 18446744073709551593.
Proof. reflexivity. Qed.

(* ------------------------------------------------------------------ *)
(** ** The character argument *)

(** C10. The character the program looks up is the first byte of its second
    argument, and nothing after that byte matters.  For every engine: the
    whole result of [main] is the same with any further bytes as with the
    first byte alone; whatever the run writes to standard error does not
    start with the usage message; and once the font is open the run is
    decided by the engine's answer for the code of that first byte: if the
    engine has no glyph for it, [main] exits with code 1 and the diagnostic
    names that byte, and if it has one that loads as an outline and
    decomposes, [main] exits with code 0 and the first line of standard
    output names that byte and the font path. *)
Theorem main_uses_first_byte
        (ft : FreeType) (argv0 font : string) (c : ascii) (rest : string) :
  main ft argv0 [font; String c rest] =
  main ft argv0 [font; String c EmptyString] /\
  match main ft argv0 [font; String c rest] with
  | Returns (_, w) => starts_with "Usage: " (buf (cerr w)) = false
  | Undefined => True
  end /\
  (FT_Init_FreeType ft = 0 ->
   FT_New_Face ft font 0 = 0 ->
   FT_Err_Unknown_File_Format ft <> 0 ->
   (FT_Get_Char_Index ft (FT_ULong_of_char ft c) = 0 ->
    exists w,
      main ft argv0 [font; String c rest] = Returns (1, w) /\
      buf (cout w) = EmptyString /\
      buf (cerr w) =
        ("Error: Glyph not found for character '"
           ++ String c ("'." ++ nl))%string) /\
   (FT_Get_Char_Index ft (FT_ULong_of_char ft c) <> 0 ->
    FT_Load_Glyph ft (FT_Get_Char_Index ft (FT_ULong_of_char ft c))
      (Z.lor (FT_LOAD_NO_SCALE ft) (FT_LOAD_NO_HINTING ft)) = 0 ->
    glyph_format ft = FT_GLYPH_FORMAT_OUTLINE ft ->
    outline_status ft = 0 ->
    respects_protocol (outline_events ft) = true ->
    exists w path,
      main ft argv0 [font; String c rest] = Returns (0, w) /\
      decompose (outline_events ft) = Returns (0, path) /\
      buf (cout w) = (success_line c font ++ rendered_path path)%string)).
Proof.
  split; [reflexivity|]. split.
  - unfold main. cbv zeta. rewrite argc_test.
    cbn [List.length Nat.eqb negb nth first_char].
    do 6 (stage; [reflexivity|]).
    destruct (FT_Outline_Decompose ft callbacks []) as [[e p]|];
      [|exact I].
    stage; reflexivity.
  - intros Hinit Hopen Hfmt.
    assert (Efmt : (0 =? FT_Err_Unknown_File_Format ft) = false)
      by (apply Z.eqb_neq; congruence).
    split.
    + intros Hidx.
      unfold main. cbv zeta. rewrite argc_test.
      cbn [List.length Nat.eqb negb nth first_char].
      rewrite Hinit, Hopen, Hidx, Efmt.
      change (0 =? 0) with true. cbn [negb].
      eexists. split; [reflexivity|]. split; reflexivity.
    + intros Hidx Hload Hformat Hstatus Hprotocol.
      destruct (FT_Outline_Decompose_spec ft Hprotocol) as [path [Hd HD]].
      apply Z.eqb_neq in Hidx.
      unfold main. cbv zeta. rewrite argc_test.
      cbn [List.length Nat.eqb negb nth first_char].
      rewrite Hinit, Hopen, Efmt, Hidx, Hload, Hformat, HD, Hstatus,
        !Z.eqb_refl.
      cbn [negb].
      eexists. exists path. split; [reflexivity|]. split; [exact Hd|].
      cbn [cout FT_Done_FreeType FT_Done_Face on_cout initial_world].
      rewrite PrintGlyphPath_spec by reflexivity.
      f_equal.
Qed.

Lemma main_uses_first_byte_witness :
  (FT_Init_FreeType sample_engine = 0 /\
   FT_New_Face sample_engine "font.ttf" 0 = 0 /\
   FT_Err_Unknown_File_Format sample_engine <> 0 /\
   FT_Get_Char_Index sample_engine (FT_ULong_of_char sample_engine "z") = 0 /\
   exists w,
     main sample_engine "get_char" ["font.ttf"; "zebra"]%string
     = Returns (1, w) /\
     buf (cout w) = EmptyString /\
     buf (cerr w) =
       ("Error: Glyph not found for character '"
          ++ String "z" ("'." ++ nl))%string) /\
  (FT_Get_Char_Index sample_engine (FT_ULong_of_char sample_engine "A") <> 0 /\
   FT_Load_Glyph sample_engine
     (FT_Get_Char_Index sample_engine (FT_ULong_of_char sample_engine "A"))
     (Z.lor (FT_LOAD_NO_SCALE sample_engine)
            (FT_LOAD_NO_HINTING sample_engine)) = 0 /\
   glyph_format sample_engine = FT_GLYPH_FORMAT_OUTLINE sample_engine /\
   outline_status sample_engine = 0 /\
   respects_protocol (outline_events sample_engine) = true /\
   exists w path,
     main sample_engine "get_char" ["font.ttf"; "Abc"]%string
     = Returns (0, w) /\
     decompose (outline_events sample_engine) = Returns (0, path) /\
     buf (cout w) =
       (success_line "A" "font.ttf" ++ rendered_path path)%string).
Proof.
  split.
  - split; [reflexivity|]. split; [reflexivity|]. split; [discriminate|].
    split; [reflexivity|].
    apply (proj2 (proj2 (main_uses_first_byte sample_engine "get_char"
                           "font.ttf" "z" "ebra"))).
    + reflexivity.
    + reflexivity.
    + discriminate.
    + reflexivity.
  - split; [discriminate|]. split; [reflexivity|]. split; [reflexivity|].
    split; [reflexivity|]. split; [reflexivity|].
    apply (proj2 (proj2 (main_uses_first_byte sample_engine "get_char"
                           "font.ttf" "A" "bc"))).
    + reflexivity.
    + reflexivity.
    + discriminate.
    + discriminate.
    + reflexivity.
    + reflexivity.
    + reflexivity.
    + reflexivity.
Defined.
